(** * openAudioBook: the chunked synthesis-with-verification pipeline

    A shallow embedding of [main.py]: the text segmenter
    ([split_into_chunks]), the similarity scorer ([text_similarity], on top
    of a model of [difflib.SequenceMatcher]), the chapter metadata writer
    ([create_chapter_file]) and the pipeline [create_audiobook_from_pickle]
    with its per-chunk synthesize/transcribe/compare loop, followed by the
    properties of the specification that were checked against them. *)

From Stdlib Require Import ZArith QArith List String Ascii Lia.
From Stdlib Require Import Numbers.DecimalString.
From stdpp Require Import base tactics option list sorting gmap strings.

Local Open Scope string_scope.
Local Open Scope Z_scope.
Local Open Scope list_scope.

(** ** Python [str] primitives

    A Python [str] is modelled as a [string] holding one [ascii] per code
    point, for the code points U+0000..U+00FF. *)
Module PyStr.

(** [len(s)] *)
Definition len (s : string) : Z := Z.of_nat (String.length s).

(** Truth value of a [str]: every string but the empty one. *)
Definition truthy (s : string) : bool :=
  match s with
  | EmptyString => false
  | String _ _ => true
  end.

(** [str.isspace] on one code point: the code points below U+0100 that
    CPython treats as whitespace in [strip()] and [split()]. *)
Definition is_space (c : ascii) : bool :=
  let n := N_of_ascii c in
  (((9 <=? n) && (n <=? 13)) || ((28 <=? n) && (n <=? 32))
   || (n =? 133) || (n =? 160))%N.

Fixpoint lstrip (s : string) : string :=
  match s with
  | EmptyString => EmptyString
  | String c s' => if is_space c then lstrip s' else s
  end.

Fixpoint rstrip (s : string) : string :=
  match s with
  | EmptyString => EmptyString
  | String c s' =>
      match rstrip s' with
      | EmptyString => if is_space c then EmptyString else String c EmptyString
      | r => String c r
      end
  end.

(** [s.strip()] *)
Definition strip (s : string) : string := rstrip (lstrip s).

(** [s.split(sep)] for a one-character separator: the pieces between the
    occurrences of [sep], empty pieces included. *)
Fixpoint split_on (sep : ascii) (s : string) : list string :=
  match s with
  | EmptyString => [EmptyString]
  | String c s' =>
      if Ascii.eqb c sep then EmptyString :: split_on sep s'
      else match split_on sep s' with
           | [] => [String c EmptyString]
           | w :: ws => String c w :: ws
           end
  end.

(** [s.split()]: the maximal runs of non-whitespace characters. [cur] is
    the run being read. *)
Fixpoint split_from (cur : string) (s : string) : list string :=
  match s with
  | EmptyString => if truthy cur then [cur] else []
  | String c s' =>
      if is_space c then
        if truthy cur then cur :: split_from EmptyString s'
        else split_from EmptyString s'
      else split_from (cur +:+ String c EmptyString) s'
  end.

Definition split (s : string) : list string := split_from EmptyString s.

(** [sep.join(l)] *)
Fixpoint join (sep : string) (l : list string) : string :=
  match l with
  | [] => EmptyString
  | [s] => s
  | s :: l' => s +:+ sep +:+ join sep l'
  end.

(** [c.lower()] on one code point below U+0100: A-Z, and the Latin-1
    capitals U+00C0..U+00DE but the multiplication sign U+00D7. *)
Definition lower_char (c : ascii) : ascii :=
  let n := N_of_ascii c in
  if (((65 <=? n) && (n <=? 90))
      || ((192 <=? n) && (n <=? 222) && negb (n =? 215)))%N
  then ascii_of_N (n + 32) else c.

(** [s.lower()] *)
Fixpoint lower (s : string) : string :=
  match s with
  | EmptyString => EmptyString
  | String c s' => String (lower_char c) (lower s')
  end.

(** [str(n)] for a non-negative [int]. *)
Definition str_of_nat (n : nat) : string :=
  NilZero.string_of_uint (Nat.to_uint n).

End PyStr.

(** ** The text segmenter *)
Module Segmenter.
Import PyStr.

(** The word-packing loop ([for word in words]), written twice in the
    source: once on a clause that is too long and once in the final
    pass. The state is [temp_chunk] and the list being appended to. *)
Fixpoint pack_loop (max_length : Z) (words : list string)
    (temp_chunk : string) (out : list string) : string * list string :=
  match words with
  | [] => (temp_chunk, out)
  | word :: words' =>
      if len temp_chunk + len word + 1 <=? max_length then
        pack_loop max_length words'
          (if truthy temp_chunk then temp_chunk +:+ " " +:+ word else word) out
      else
        pack_loop max_length words' word (out ++ [strip temp_chunk])
  end.

(** The loop followed by [if temp_chunk: out.append(temp_chunk.strip())]. *)
Definition pack_words (max_length : Z) (words : list string)
    (out : list string) : list string :=
  let '(temp_chunk, out') := pack_loop max_length words EmptyString out in
  if truthy temp_chunk then out' ++ [strip temp_chunk] else out'.

(** [[p.strip() + sep for p in s.split(sep) if p.strip()]] *)
Definition pieces (sep : ascii) (s : string) : list string :=
  List.map (fun p => strip p +:+ String sep EmptyString)
    (List.filter (fun p => truthy (strip p)) (split_on sep s)).

(** Body of [for part in comma_parts]. *)
Definition part_step (max_length : Z) (chunks : list string)
    (part : string) : list string :=
  if len part >? max_length then pack_words max_length (split part) chunks
  else chunks ++ [part].

(** Body of [for sentence in sentences], on the pair
    [(chunks, current_chunk)]. *)
Definition sentence_step (max_length : Z) (st : list string * string)
    (sentence : string) : list string * string :=
  let '(chunks, current_chunk) := st in
  if negb (truthy (strip sentence)) then st
  else if len sentence >? max_length then
    (fold_left (part_step max_length) (pieces "," sentence) chunks,
     current_chunk)
  else if len current_chunk + len sentence + 1 <=? max_length then
    (chunks,
     if truthy current_chunk then current_chunk +:+ " " +:+ sentence
     else sentence)
  else
    (if truthy current_chunk then chunks ++ [strip current_chunk] else chunks,
     sentence).

(** Body of the final [for chunk in chunks]. *)
Definition final_step (max_length : Z) (final_chunks : list string)
    (chunk : string) : list string :=
  if len chunk <=? max_length then final_chunks ++ [chunk]
  else pack_words max_length (split chunk) final_chunks.

Definition default_max_length : Z := 200.

Definition split_into_chunks (text : string) (max_length : Z) : list string :=
  let sentences := pieces "." text in
  let '(chunks, current_chunk) :=
    fold_left (sentence_step max_length) sentences ([], EmptyString) in
  let chunks :=
    if truthy current_chunk then chunks ++ [strip current_chunk] else chunks in
  fold_left (final_step max_length) chunks [].

End Segmenter.

(** ** [difflib.SequenceMatcher]

    [text_similarity] is [SequenceMatcher(None, x, y).ratio()]: no junk
    predicate, and [autojunk] left at its default, [True]. The model follows
    CPython's [Lib/difflib.py] method by method. Positions are natural
    numbers; a [Match] is the triple [(i, j, k)]: [a[i:i+k] == b[j:j+k]]. *)
Module Difflib.
Local Open Scope nat_scope.

Definition Match : Type := nat * nat * nat.

Definition size (m : Match) : nat := m.2.

Section SequenceMatcher.
Context {A : Type} `{Countable A}.

(** [a[i] == b[j]] for positions the caller keeps within range. *)
Definition same_at (a b : list A) (i j : nat) : bool :=
  match a !! i, b !! j with
  | Some x, Some y => bool_decide (x = y)
  | _, _ => false
  end.

(** *** [__chain_b] *)

(** [for i, elt in enumerate(b): b2j.setdefault(elt, []).append(i)],
    from position [i] on. *)
Fixpoint chain_from (i : nat) (b : list A) (b2j : gmap A (list nat))
    : gmap A (list nat) :=
  match b with
  | [] => b2j
  | elt :: b' =>
      chain_from (S i) b' (<[elt := default [] (b2j !! elt) ++ [i]]> b2j)
  end.

(** The purge of popular elements: with [autojunk] and [n >= 200], the
    elements that occur more than [n // 100 + 1] times lose their entry. *)
Definition purge_popular (n : nat) (b2j : gmap A (list nat))
    : gmap A (list nat) :=
  if 200 <=? n then
    let ntest := n / 100 + 1 in
    filter (λ p : A * list nat, ¬ ntest < length p.2) b2j
  else b2j.

Definition chain_b (b : list A) : gmap A (list nat) :=
  purge_popular (length b) (chain_from 0 b ∅).

(** [isjunk] is [None], so [bjunk] is the empty set. *)
Definition isbjunk (x : option A) : bool := false.

(** *** [find_longest_match] *)

(** [j2len.get(j-1, 0)]: no key is negative, so for [j = 0] the lookup
    of [-1] yields the default. *)
Definition j2lenget (j2len : gmap nat nat) (j : nat) : nat :=
  match j with
  | 0 => 0
  | S j' => default 0 (j2len !! j')
  end.

(** [for j in b2j.get(a[i], nothing)], with its [continue] and [break].
    [i-k+1] and [j-k+1] are written [i+1-k] and [j+1-k]: [k] never
    exceeds [i+1] or [j+1] (lemma [inner_loop_range]). *)
Fixpoint inner_loop (blo bhi i : nat) (j2len : gmap nat nat)
    (js : list nat) (newj2len : gmap nat nat) (best : Match)
    : gmap nat nat * Match :=
  match js with
  | [] => (newj2len, best)
  | j :: js' =>
      if j <? blo then inner_loop blo bhi i j2len js' newj2len best
      else if bhi <=? j then (newj2len, best)
      else
        let k := j2lenget j2len j + 1 in
        inner_loop blo bhi i j2len js' (<[j := k]> newj2len)
          (if size best <? k then (i + 1 - k, j + 1 - k, k) else best)
  end.

(** [for i in range(alo, ahi)], on the pair [(j2len, best)]. *)
Definition outer_step (a : list A) (b2j : gmap A (list nat))
    (blo bhi : nat) (st : gmap nat nat * Match) (i : nat)
    : gmap nat nat * Match :=
  let js := match a !! i with
            | Some x => default [] (b2j !! x)
            | None => []
            end in
  inner_loop blo bhi i st.1 js ∅ st.2.

(** The [while] loops that grow the block to the left: [besti]
    decreases at every turn and the guard fails at [besti = 0], so the
    recursion is on [besti]. [junk] is the value [isbjunk] must take:
    [false] in the first loop, [true] in the third. *)
Fixpoint extend_left (a b : list A) (alo blo : nat) (junk : bool)
    (besti bestj bestsize : nat) : Match :=
  match besti with
  | 0 => (besti, bestj, bestsize)
  | S besti' =>
      if (alo <? besti) && (blo <? bestj)
         && eqb (isbjunk (b !! (bestj - 1))) junk
         && same_at a b (besti - 1) (bestj - 1)
      then extend_left a b alo blo junk besti' (bestj - 1) (bestsize + 1)
      else (besti, bestj, bestsize)
  end.

(** The [while] loops that grow the block to the right; [fuel] bounds
    the turns, and [ahi - (besti + bestsize)] of them are enough. *)
Fixpoint extend_right (a b : list A) (ahi bhi : nat) (junk : bool)
    (fuel : nat) (besti bestj bestsize : nat) : nat :=
  match fuel with
  | 0 => bestsize
  | S fuel' =>
      if (besti + bestsize <? ahi) && (bestj + bestsize <? bhi)
         && eqb (isbjunk (b !! (bestj + bestsize))) junk
         && same_at a b (besti + bestsize) (bestj + bestsize)
      then extend_right a b ahi bhi junk fuel' besti bestj (bestsize + 1)
      else bestsize
  end.

Definition find_longest_match (a b : list A) (b2j : gmap A (list nat))
    (alo ahi blo bhi : nat) : Match :=
  let '(_, (besti, bestj, bestsize)) :=
    fold_left (outer_step a b2j blo bhi) (seq alo (ahi - alo))
      (∅, (alo, blo, 0)) in
  let '(besti, bestj, bestsize) :=
    extend_left a b alo blo false besti bestj bestsize in
  let bestsize :=
    extend_right a b ahi bhi false (ahi - (besti + bestsize))
      besti bestj bestsize in
  let '(besti, bestj, bestsize) :=
    extend_left a b alo blo true besti bestj bestsize in
  let bestsize :=
    extend_right a b ahi bhi true (ahi - (besti + bestsize))
      besti bestj bestsize in
  (besti, bestj, bestsize).

(** *** [get_matching_blocks] *)

(** The [while queue] loop. [queue] is used as a stack ([pop], [append]):
    its top is the head of the list. [None] stands for a run that
    [fuel] turns did not finish. *)
Fixpoint queue_loop (a b : list A) (b2j : gmap A (list nat)) (fuel : nat)
    (queue : list (nat * nat * nat * nat)) (matching_blocks : list Match)
    : option (list Match) :=
  match queue with
  | [] => Some matching_blocks
  | (alo, ahi, blo, bhi) :: queue' =>
      match fuel with
      | 0 => None
      | S fuel' =>
          let '(i, j, k) := find_longest_match a b b2j alo ahi blo bhi in
          if k =? 0 then queue_loop a b b2j fuel' queue' matching_blocks
          else
            let q1 := if (alo <? i) && (blo <? j)
                      then (alo, i, blo, j) :: queue' else queue' in
            let q2 := if (i + k <? ahi) && (j + k <? bhi)
                      then (i + k, ahi, j + k, bhi) :: q1 else q1 in
            queue_loop a b b2j fuel' q2 (matching_blocks ++ [(i, j, k)])
      end
  end.

(** The order of [list.sort()] on triples. *)
Definition match_le (x y : Match) : Prop :=
  x.1.1 < y.1.1
  ∨ (x.1.1 = y.1.1 ∧ (x.1.2 < y.1.2 ∨ (x.1.2 = y.1.2 ∧ x.2 ≤ y.2))).

Global Instance match_le_dec : RelDecision match_le.
Proof. intros x y. unfold match_le. apply _. Defined.

(** The loop that merges adjacent blocks, on [((i1, j1, k1), non_adjacent)]. *)
Definition collapse_step (st : Match * list Match) (m : Match)
    : Match * list Match :=
  let '((i1, j1, k1), non_adjacent) := st in
  let '(i2, j2, k2) := m in
  if (i1 + k1 =? i2) && (j1 + k1 =? j2) then ((i1, j1, k1 + k2), non_adjacent)
  else ((i2, j2, k2),
        if k1 =? 0 then non_adjacent else non_adjacent ++ [(i1, j1, k1)]).

Definition collapse (la lb : nat) (matching_blocks : list Match)
    : list Match :=
  let '((i1, j1, k1), non_adjacent) :=
    fold_left collapse_step matching_blocks ((0, 0, 0), []) in
  (if k1 =? 0 then non_adjacent else non_adjacent ++ [(i1, j1, k1)])
  ++ [(la, lb, 0)].

(** Every turn of [queue_loop] lowers [2 * (ahi - alo) + 1] summed over
    the queue, so [2 * len(a) + 1] turns finish it
    (lemma [queue_loop_total]). *)
Definition get_matching_blocks (a b : list A) : option (list Match) :=
  let la := length a in
  let lb := length b in
  blocks ← queue_loop a b (chain_b b) (2 * la + 1) [(0, la, 0, lb)] [];
  Some (collapse la lb (merge_sort match_le blocks)).

(** [_calculate_ratio]: [2.0 * matches / length], and [1.0] when
    [length] is [0]. The float is modelled by the rational it rounds. *)
Definition calculate_ratio (matches length : nat) : Q :=
  if length =? 0 then 1%Q
  else (Z.of_nat (2 * matches) # Pos.of_nat length)%Q.

(** [ratio] *)
Definition ratio (a b : list A) : option Q :=
  blocks ← get_matching_blocks a b;
  Some (calculate_ratio (sum_list_with size blocks) (length a + length b)).

End SequenceMatcher.
End Difflib.

(** ** The similarity scorer *)
Module Similarity.
Import PyStr.

(** [' '.join(text.lower().split())] *)
Definition normalize (text : string) : string :=
  join " " (split (lower text)).

Definition text_similarity (text1 text2 : string) : option Q :=
  Difflib.ratio (list_ascii_of_string (normalize text1))
                (list_ascii_of_string (normalize text2)).

End Similarity.

(** ** The pipeline: [create_chapter_file], [verify_audio_quality],
    [create_audiobook_from_pickle]

    The collaborators are parameters: [pydub.AudioSegment] is an abstract
    type with its three operations, and the synthesis model, the
    transcription model, the encoder and [ffmpeg] are oracles. The
    filesystem is a finite map from paths to files, threaded through every
    call together with the number of synthesis invocations made so far.
    [print] and the progress bars are left out. *)
Module Pipeline.
Import PyStr Segmenter Similarity.

Section Collaborators.

(** [AudioSegment]: [silent] is [AudioSegment.silent(duration=0)],
    [audio_add x y] is [x + y] and [audio_len x] is [len(x)], the duration
    in milliseconds. *)
Context {Audio : Type}.
Context (silent : Audio) (audio_add : Audio → Audio → Audio)
        (audio_len : Audio → Z).

Inductive File : Type :=
| Wav (samples : Audio)
| Data (content : string).

(** What a call that writes one file does: it writes the file, or it
    raises, having left a file behind or not. *)
Inductive Outcome : Type :=
| Wrote (f : File)
| Failed (left : option File).

(** [tts.tts_to_file(text=chunk, file_path=temp_wav, ...)], by the number
    of earlier invocations and the text;
    [whisper_model.transcribe(audio_file)["text"]], by the number of
    synthesis invocations so far and the file read, [None] when it raises;
    [final_audio.export(temp_audio, format="ipod", codec="aac")];
    [subprocess.run(cmd, check=True)], by the filesystem it reads and the
    path it writes. *)
Context (tts_to_file : nat → string → Outcome)
        (transcribe : nat → File → option string)
        (export : Audio → Outcome)
        (ffmpeg : gmap string File → string → Outcome).

Record World : Type := mkWorld {
  fs : gmap string File;
  tts_calls : nat
}.

(** The exceptions that leave [create_audiobook_from_pickle]. *)
Inductive Exn : Type :=
| FileNotFoundError (path : string)
| UnboundLocalError
| ExportError
| CalledProcessError.

Record Chapter : Type := mkChapter {
  chapter_title : string;
  chapter_content : list string
}.

Record ChapterInfo : Type := mkChapterInfo {
  start_ms : Z;
  end_ms : Z;
  title : string
}.

(** *** Filesystem effects *)

Definition write (path : string) (f : File) (w : World) : World :=
  mkWorld (<[path := f]> (fs w)) (tts_calls w).

Definition settle (path : string) (o : Outcome) (w : World) : World :=
  match o with
  | Wrote f => write path f w
  | Failed (Some f) => write path f w
  | Failed None => w
  end.

(** [if os.path.exists(path): os.remove(path)] *)
Definition remove_if_exists (path : string) (w : World) : World :=
  mkWorld (delete path (fs w)) (tts_calls w).

(** [AudioSegment.from_wav(path)]; [None] when it raises. *)
Definition from_wav (path : string) (w : World) : option Audio :=
  match fs w !! path with
  | Some (Wav samples) => Some samples
  | _ => None
  end.

(** *** [create_chapter_file] *)

Definition newline : string := String (ascii_of_nat 10) EmptyString.

(** [str(n)] for an [int]. *)
Definition str_of_int (n : Z) : string :=
  NilZero.string_of_int (Z.to_int n).

(** [int(ms / 1000)]: the float quotient truncated; on the integers a
    double holds exactly it is the quotient rounded toward zero. *)
Definition seconds (ms : Z) : Z := Z.quot ms 1000.

Definition chapter_stanza (ch : ChapterInfo) : string :=
  let start_time := seconds (start_ms ch) in
  let end_time := seconds (end_ms ch) in
  "[CHAPTER]" +:+ newline +:+ "TIMEBASE=1/1" +:+ newline
  +:+ "START=" +:+ str_of_int start_time +:+ newline
  +:+ "END=" +:+ str_of_int end_time +:+ newline
  +:+ "title=" +:+ title ch +:+ newline +:+ newline.

(** [open('chapters.txt', 'w')] and one [f.write] per chapter. *)
Definition create_chapter_file (chapters_info : list ChapterInfo)
    (output_file : string) (w : World) : World :=
  write "chapters.txt"
    (Data (fold_left (fun written ch => written +:+ chapter_stanza ch)
             chapters_info EmptyString)) w.

(** *** [verify_audio_quality] *)

Definition SIMILARITY_THRESHOLD : Q := 85 # 100.

(** The outer [option] is that of [text_similarity]; the inner one is
    [None] when reading or transcribing the file raises. *)
Definition verify_audio_quality (audio_file original_text : string)
    (w : World) : option (option (bool * Q)) :=
  match fs w !! audio_file ≫= transcribe (tts_calls w) with
  | None => Some None
  | Some transcribed_text =>
      similarity ← text_similarity original_text transcribed_text;
      Some (Some (Qle_bool SIMILARITY_THRESHOLD similarity, similarity))
  end.

(** *** The per-chunk loop *)

Definition max_attempts : nat := 3.

(** The variables of the [while] loop; [temp_wav] is unbound before the
    first turn. *)
Record Loop : Type := mkLoop {
  attempt : nat;
  chunk_generated : bool;
  chapter_audio : Audio;
  temp_wav : option string
}.

Definition temp_wav_name (chapter_title : string) (i attempt : nat) : string :=
  "temp_" +:+ chapter_title +:+ "_" +:+ str_of_nat i
  +:+ "_attempt_" +:+ str_of_nat attempt +:+ ".wav".

(** [attempt += 1], in the [else] branch and in the [except] clause. *)
Definition failed (s : Loop) : Loop :=
  mkLoop (S (attempt s)) (chunk_generated s) (chapter_audio s) (temp_wav s).

(** [chapter_audio += chunk_audio; chunk_generated = True] *)
Definition accepted (s : Loop) (chunk_audio : Audio) : Loop :=
  mkLoop (attempt s) true (audio_add (chapter_audio s) chunk_audio) (temp_wav s).

(** The [try] block with its [except Exception] clause. *)
Definition try_attempt (chunk path : string) (s : Loop) (w : World)
    : option (Loop * World) :=
  let o := tts_to_file (tts_calls w) chunk in
  let w := mkWorld (fs (settle path o w)) (S (tts_calls w)) in
  match o with
  | Failed _ => Some (failed s, w)
  | Wrote _ =>
      match verify_audio_quality path chunk w with
      | None => None
      | Some None => Some (failed s, w)
      | Some (Some (is_good_quality, similarity)) =>
          if is_good_quality then
            match from_wav path w with
            | Some chunk_audio => Some (accepted s chunk_audio, w)
            | None => Some (failed s, w)
            end
          else Some (failed s, w)
      end
  end.

(** One turn of the [while] loop: the assignment of [temp_wav], the [try]
    block and its [finally] clause. *)
Definition attempt_body (chapter_title chunk : string) (i : nat)
    (s : Loop) (w : World) : option (Loop * World) :=
  let path := temp_wav_name chapter_title i (attempt s) in
  let s := mkLoop (attempt s) (chunk_generated s) (chapter_audio s) (Some path) in
  '(s, w) ← try_attempt chunk path s w;
  Some (s, remove_if_exists path w).

(** [while attempt < max_attempts and not chunk_generated]; [None] when
    [fuel] turns did not end the loop. *)
Fixpoint while_loop (chapter_title chunk : string) (i : nat) (fuel : nat)
    (s : Loop) (w : World) : option (Loop * World) :=
  if (attempt s <? max_attempts)%nat && negb (chunk_generated s) then
    match fuel with
    | O => None
    | S fuel' =>
        '(s, w) ← attempt_body chapter_title chunk i s w;
        while_loop chapter_title chunk i fuel' s w
    end
  else Some (s, w).

(** The body of [for i, chunk in enumerate(text_chunks)]: the loop, of
    which [max_attempts] turns are enough (lemma [while_loop_total]), and
    the fallback after it. The result is the exception raised or the
    variables at the end of the body. *)
Definition process_chunk (chapter_title chunk : string) (i : nat)
    (chapter_audio0 : Audio) (w : World) : option (World * (Exn + Loop)) :=
  '(s, w) ← while_loop chapter_title chunk i max_attempts
              (mkLoop 0 false chapter_audio0 None) w;
  if chunk_generated s then Some (w, inr s)
  else
    match temp_wav s with
    | None => Some (w, inl UnboundLocalError)
    | Some path =>
        match from_wav path w with
        | Some chunk_audio =>
            Some (w, inr (mkLoop (attempt s) (chunk_generated s)
                            (audio_add (chapter_audio s) chunk_audio)
                            (temp_wav s)))
        | None => Some (w, inl (FileNotFoundError path))
        end
    end.

(** [for i, chunk in enumerate(text_chunks)], from index [i] on. *)
Fixpoint chunks_loop (chapter_title : string) (i : nat)
    (text_chunks : list string) (chapter_audio0 : Audio) (w : World)
    : option (World * (Exn + Audio)) :=
  match text_chunks with
  | [] => Some (w, inr chapter_audio0)
  | chunk :: rest =>
      '(w, r) ← process_chunk chapter_title chunk i chapter_audio0 w;
      match r with
      | inl e => Some (w, inl e)
      | inr s => chunks_loop chapter_title (S i) rest (chapter_audio s) w
      end
  end.

(** *** The chapter loop *)

(** [final_audio], [chapters_info] and [current_offset]. *)
Record Book : Type := mkBook {
  final_audio : Audio;
  chapters_info : list ChapterInfo;
  current_offset : Z
}.

(** The end of the body of [for chapter in chapters], from
    [final_audio += chapter_audio] on. *)
Definition record_chapter (bk : Book) (chapter_title : string)
    (chapter_audio0 : Audio) : Book :=
  let chapter_start := current_offset bk in
  let chapter_end := current_offset bk + audio_len chapter_audio0 in
  mkBook (audio_add (final_audio bk) chapter_audio0)
         (chapters_info bk ++ [mkChapterInfo chapter_start chapter_end chapter_title])
         chapter_end.

(** [" ".join(chapter["chapter_content"]).strip()] *)
Definition chapter_text (chapter : Chapter) : string :=
  strip (join " " (chapter_content chapter)).

(** The audio of one chapter that is not skipped. *)
Definition assemble_chapter (chapter : Chapter) (w : World)
    : option (World * (Exn + Audio)) :=
  let text_chunks := split_into_chunks (chapter_text chapter) 250 in
  chunks_loop (chapter_title chapter) 0 text_chunks silent w.

(** The body of [for chapter in chapters]. *)
Definition chapter_step (chapter : Chapter) (bk : Book) (w : World)
    : option (Book * World * option Exn) :=
  match chapter_content chapter with
  | [] => Some (bk, w, None)
  | _ :: _ =>
      if negb (truthy (chapter_text chapter)) then Some (bk, w, None)
      else
        '(w, r) ← assemble_chapter chapter w;
        match r with
        | inl e => Some (bk, w, Some e)
        | inr chapter_audio0 =>
            Some (record_chapter bk (chapter_title chapter) chapter_audio0, w, None)
        end
  end.

Fixpoint chapters_loop (chapters : list Chapter) (bk : Book) (w : World)
    : option (Book * World * option Exn) :=
  match chapters with
  | [] => Some (bk, w, None)
  | chapter :: rest =>
      '(bk, w, e) ← chapter_step chapter bk w;
      match e with
      | Some _ => Some (bk, w, e)
      | None => chapters_loop rest bk w
      end
  end.

(** *** The export *)

Definition temp_audio : string := "temp_audiobook.m4a".

(** The [try] block of the export with its [except] clause, which raises
    again. *)
Definition try_export (bk : Book) (output_file : string) (w : World)
    : World * option Exn :=
  let o := export (final_audio bk) in
  let w := settle temp_audio o w in
  match o with
  | Failed _ => (w, Some ExportError)
  | Wrote _ =>
      let w := create_chapter_file (chapters_info bk) "chapters.txt" w in
      let o := ffmpeg (fs w) output_file in
      let w := settle output_file o w in
      match o with
      | Failed _ => (w, Some CalledProcessError)
      | Wrote _ => (w, None)
      end
  end.

(** The [try] statement with its [finally] clause. *)
Definition export_step (bk : Book) (output_file : string) (w : World)
    : World * option Exn :=
  let '(w, e) := try_export bk output_file w in
  (remove_if_exists "chapters.txt" (remove_if_exists temp_audio w), e).

(** [create_audiobook_from_pickle], from the unpickled [chapters] on: the
    final filesystem and the exception raised, if any. *)
Definition create_audiobook_from_pickle (chapters : list Chapter)
    (output_file : string) (w : World) : option (World * option Exn) :=
  '(bk, w, e) ← chapters_loop chapters (mkBook silent [] 0) w;
  match e with
  | Some _ => Some (w, e)
  | None => Some (export_step bk output_file w)
  end.

End Collaborators.
End Pipeline.

(** ** Auxiliary definitions

    Invariants and measures that the statements and proofs below use. *)
Module DifflibAux.
Import Difflib.
Local Open Scope nat_scope.

(** Every entry of [j2len] lies at a position of [b[blo:bhi]] and holds a
    length that fits before that position and within [rows] rows of [a]. *)
Definition j2len_ok (blo bhi rows : nat) (j2len : gmap nat nat) : Prop :=
  ∀ j k, j2len !! j = Some k →
    blo ≤ j < bhi ∧ 1 ≤ k ∧ k ≤ j + 1 - blo ∧ k ≤ rows.

(** The block [best] lies within [a[alo:ahi]] and [b[blo:bhi]]. *)
Definition best_ok (alo ahi blo bhi : nat) (best : Match) : Prop :=
  alo ≤ best.1.1 ∧ best.1.1 + best.2 ≤ ahi
  ∧ blo ≤ best.1.2 ∧ best.1.2 + best.2 ≤ bhi.

(** A queue entry [(alo, ahi, blo, bhi)] names two ranges. *)
Definition item_ok (q : nat * nat * nat * nat) : Prop :=
  q.1.1.1 ≤ q.1.1.2 ∧ q.1.2 ≤ q.2.

(** The number of turns of the [while queue] loop that a queue can still
    cause, and the characters of [a] and of [b] its ranges cover. *)
Definition turns (queue : list (nat * nat * nat * nat)) : nat :=
  sum_list_with (λ q, 2 * (q.1.1.2 - q.1.1.1) + 1) queue.

Definition a_span (queue : list (nat * nat * nat * nat)) : nat :=
  sum_list_with (λ q, q.1.1.2 - q.1.1.1) queue.

Definition b_span (queue : list (nat * nat * nat * nat)) : nat :=
  sum_list_with (λ q, q.2 - q.1.2) queue.

Section Positions.
Context {A : Type} `{Countable A}.

(** The positions of [c] in [b], counted from [i], in increasing order:
    what [__chain_b] collects under the key [c]. *)
Fixpoint positions_from (i : nat) (c : A) (b : list A) : list nat :=
  match b with
  | [] => []
  | x :: b' =>
      if decide (x = c) then i :: positions_from (S i) c b'
      else positions_from (S i) c b'
  end.

(** [b2j.get(x[i], nothing)] *)
Definition row_js (x : list A) (b2j : gmap A (list nat)) (i : nat) : list nat :=
  match x !! i with
  | Some c => default [] (b2j !! c)
  | None => []
  end.

(** The length of the longest run of elements that kept their entry in
    [b2j] and that ends just before position [i] of [x]. *)
Fixpoint run_len (x : list A) (b2j : gmap A (list nat)) (i : nat) : nat :=
  match i with
  | 0 => 0
  | S i' =>
      match row_js x b2j i' with
      | [] => 0
      | _ :: _ => run_len x b2j i' + 1
      end
  end.

(** The state of [find_longest_match] on [x] against itself after the rows
    before [i]: lengths are bounded by the runs, the entry on the diagonal
    is the run itself, and the best block lies on the diagonal and is at
    least as long as every run so far. *)
Definition diag_inv (x : list A) (b2j : gmap A (list nat)) (i : nat)
    (st : gmap nat nat * Match) : Prop :=
  (∀ j k, st.1 !! j = Some k →
     k ≤ run_len x b2j (S j) ∧ k ≤ run_len x b2j i)
  ∧ j2lenget st.1 i = run_len x b2j i
  ∧ st.2.1.1 = st.2.1.2
  ∧ (∀ i', i' ≤ i → run_len x b2j i' ≤ size st.2).

End Positions.

End DifflibAux.

Module SegmenterAux.
Import PyStr.

(** The words of a text once the sentence terminator and the clause
    separator, which the segmenter removes and appends again, count as
    blanks. *)
Fixpoint unpad (s : string) : string :=
  match s with
  | EmptyString => EmptyString
  | String c s' =>
      String (if Ascii.eqb c "." || Ascii.eqb c "," then " "%char else c)
             (unpad s')
  end.

Definition word_sequence (s : string) : list string := split (unpad s).

(** A string with no whitespace in it, and a word: such a string that is
    not empty. *)
Fixpoint no_space (s : string) : bool :=
  match s with
  | EmptyString => true
  | String c s' => negb (is_space c) && no_space s'
  end.

Definition wordlike (s : string) : bool := truthy s && no_space s.

(** What the final pass of [split_into_chunks] leaves of the bound on a
    chunk: it is empty, or within [max_length], or a single word. *)
Definition bounded (max_length : Z) (chunk : string) : Prop :=
  chunk = EmptyString ∨ len chunk ≤ max_length ∨ split chunk = [chunk].

(** The words of the chunks, in the order of the chunks. *)
Definition chunk_words (chunks : list string) : list string :=
  concat (List.map word_sequence chunks).

End SegmenterAux.

Module PipelineAux.
Import PyStr Pipeline.

(** A line that is empty or holds whitespace only. *)
Fixpoint all_space (s : string) : bool :=
  match s with
  | EmptyString => true
  | String c s' => is_space c && all_space s'
  end.

(** The entries follow one another from [start] on, with no gap and no
    overlap. *)
Fixpoint contiguous_from (start : Z) (infos : list ChapterInfo) : Prop :=
  match infos with
  | [] => True
  | info :: rest => start_ms info = start ∧ contiguous_from (end_ms info) rest
  end.

(** After a turn of the [while] loop that did not accept the chunk:
    [temp_wav] names the file of that turn, and the file is gone. *)
Definition stale {Audio : Type} (chapter_title : string) (i : nat)
    (s : @Loop Audio) (w : @World Audio) : Prop :=
  (1 ≤ attempt s)%nat
  ∧ temp_wav s = Some (temp_wav_name chapter_title i (attempt s - 1))
  ∧ fs w !! temp_wav_name chapter_title i (attempt s - 1) = None.

End PipelineAux.

(** ** A run on concrete collaborators

    Audio is its duration in milliseconds; every synthesis writes one
    second of audio; the transcript is either ["ax"], which scores 0.40
    against the chunk ["ab."], or the chunk itself. *)
Module Scenario.
Import Pipeline.

Definition tts_one_second (n : nat) (text : string) : @Outcome Z :=
  Wrote (Wav 1000).

Definition garbage_transcript (n : nat) (f : @File Z) : option string :=
  Some "ax".

Definition faithful_transcript (n : nat) (f : @File Z) : option string :=
  Some "ab.".

Definition export_ok (a : Z) : @Outcome Z := Wrote (Data "m4a").

Definition ffmpeg_ok (files : gmap string (@File Z)) (output_file : string)
    : @Outcome Z :=
  Wrote (Data "m4b").

Definition empty_world : @World Z := mkWorld ∅ 0.

End Scenario.

Module SegmenterWords.
Import PyStr SegmenterAux.

(** A character that ends a word of [word_sequence]: whitespace, the
    sentence terminator or the clause separator. *)
Definition is_break (c : ascii) : bool :=
  is_space c || Ascii.eqb c "." || Ascii.eqb c ",".

(** [word_sequence] with a word already begun: [cur] is the run read so far. *)
Definition words_from (cur : string) (s : string) : list string :=
  split_from cur (unpad s).

(** A text made of whitespace and sentence terminators only. *)
Fixpoint blanks_and_stops (s : string) : bool :=
  match s with
  | EmptyString => true
  | String c s' => (is_space c || Ascii.eqb c ".") && blanks_and_stops s'
  end.

(** A chunk as the segmenter promises it: not empty and at most
    [max_length] long. *)
Definition within (max_length : Z) (chunk : string) : Prop :=
  chunk ≠ EmptyString ∧ len chunk ≤ max_length.

End SegmenterWords.

Module PipelineFiles.
Import PyStr Pipeline.

(** The paths that [create_audiobook_from_pickle] uses for its temporary
    files. *)
Definition is_temp_path (p : string) : Prop :=
  p = "chapters.txt" ∨ p = temp_audio
  ∨ ∃ chapter_title i attempt, p = temp_wav_name chapter_title i attempt.

(** The number of chunks of a chapter that is not skipped. *)
Definition chunk_count (chapter : Chapter) : nat :=
  length (Segmenter.split_into_chunks (chapter_text chapter) 250).

End PipelineFiles.

(** ** More Python [str] methods, and two path functions *)
Module PyStrMore.
Import PyStr.
Local Open Scope nat_scope.

(** The code points of a string. *)
Definition code_points (s : string) : list N :=
  List.map N_of_ascii (list_ascii_of_string s).

(** [c.upper()] as code points: a-z and the Latin-1 small letters lose 32;
    the micro sign and the y with diaeresis leave Latin-1, and the sharp s
    becomes two letters. *)
Definition upper_codes (c : ascii) : list N :=
  let n := N_of_ascii c in
  if (((97 <=? n) && (n <=? 122))
      || ((224 <=? n) && (n <=? 254) && negb (n =? 247)))%N
  then [(n - 32)%N]
  else if (n =? 181)%N then [924%N]
  else if (n =? 223)%N then [83%N; 83%N]
  else if (n =? 255)%N then [376%N]
  else [n].

(** [s.upper()] as code points. *)
Definition upper (s : string) : list N :=
  concat (List.map upper_codes (list_ascii_of_string s)).

(** [s == s.upper()] *)
Definition equals_upper (s : string) : bool :=
  bool_decide (code_points s = upper s).

(** [c.isdigit()]: 0-9 and the superscripts one, two and three. *)
Definition is_digit (c : ascii) : bool :=
  let n := N_of_ascii c in
  (((48 <=? n) && (n <=? 57)) || (n =? 178) || (n =? 179) || (n =? 185))%N.

Fixpoint all_digits (s : string) : bool :=
  match s with
  | EmptyString => true
  | String c s' => is_digit c && all_digits s'
  end.

(** [s.isdigit()]: every character is a digit and there is at least one. *)
Definition isdigit (s : string) : bool := truthy s && all_digits s.

(** [s.startswith(prefix)] *)
Definition startswith (s prefix : string) : bool := String.prefix prefix s.

(** [s.endswith(suffix)] *)
Definition endswith (s suffix : string) : bool :=
  (String.length suffix <=? String.length s)
  && String.eqb
       (substring (String.length s - String.length suffix)
          (String.length suffix) s)
       suffix.

(** A line boundary of [str.splitlines()] below U+0100. *)
Definition is_linebreak (c : ascii) : bool :=
  let n := N_of_ascii c in
  (((10 <=? n) && (n <=? 13)) || ((28 <=? n) && (n <=? 30)) || (n =? 133))%N.

(** [s.splitlines()]: a carriage return and the line feed after it are one
    boundary; no line follows the last boundary. [cur] is the line being
    read. *)
Fixpoint splitlines_from (cur : string) (s : string) : list string :=
  match s with
  | EmptyString => if truthy cur then [cur] else []
  | String c s' =>
      if is_linebreak c then
        cur :: match s' with
               | String c' s'' =>
                   if Ascii.eqb c "013" && Ascii.eqb c' "010"
                   then splitlines_from EmptyString s''
                   else splitlines_from EmptyString s'
               | EmptyString => splitlines_from EmptyString s'
               end
      else splitlines_from (cur +:+ String c EmptyString) s'
  end.

Definition splitlines (s : string) : list string := splitlines_from EmptyString s.

(** [s.replace(old, new)] for a non-empty [old]: [skip] counts the
    characters of an occurrence of [old] still to be passed over. *)
Fixpoint replace_from (old new : string) (skip : nat) (s : string) : string :=
  match s with
  | EmptyString => EmptyString
  | String c s' =>
      match skip with
      | S skip' => replace_from old new skip' s'
      | 0 =>
          if String.prefix old s
          then new +:+ replace_from old new (String.length old - 1) s'
          else String c (replace_from old new 0 s')
      end
  end.

Definition replace (s old new : string) : string := replace_from old new 0 s.

(** [name.rfind(c)], [None] standing for -1. *)
Fixpoint rfind (c : ascii) (name : string) : option nat :=
  match name with
  | EmptyString => None
  | String d name' =>
      match rfind c name' with
      | Some i => Some (S i)
      | None => if Ascii.eqb d c then Some 0 else None
      end
  end.

(** [pathlib.PurePath(name).stem] for a name without separator: the name
    up to its last dot, when that dot is neither first nor last. *)
Definition stem (name : string) : string :=
  match rfind "." name with
  | Some i =>
      if (0 <? i) && (i <? String.length name - 1) then substring 0 i name
      else name
  | None => name
  end.

(** [os.path.join(a, b)] of [posixpath]. *)
Definition os_path_join (a b : string) : string :=
  if startswith b "/" then b
  else if negb (truthy a) || endswith a "/" then a +:+ b
  else a +:+ "/" +:+ b.

End PyStrMore.

(** ** [readPDF.py]: chapter extraction

    An [OrderedDict] from titles to lists of lines is an association list
    in insertion order. [parse_epub] is left out: it stands on an HTML
    parser. *)
Module ReadPDF.
Import PyStr PyStrMore.

Definition is_chapter_header (line : string) : bool :=
  let line_stripped := strip line in
  startswith (lower line_stripped) "chapter"
  || (equals_upper line_stripped && (4 <? len line_stripped)).

Definition is_page_number (line : string) : bool :=
  let line_stripped := strip line in
  isdigit line_stripped.

Definition OrderedDict : Type := list (string * list string).

(** [d[key] = value]: a key that is there keeps its place. *)
Fixpoint od_set (key : string) (value : list string) (d : OrderedDict)
    : OrderedDict :=
  match d with
  | [] => [(key, value)]
  | (k, v) :: d' =>
      if String.eqb k key then (k, value) :: d'
      else (k, v) :: od_set key value d'
  end.

(** [d[key].append(line)]; [None] is [KeyError]. *)
Fixpoint od_append (key line : string) (d : OrderedDict) : option OrderedDict :=
  match d with
  | [] => None
  | (k, v) :: d' =>
      if String.eqb k key then Some ((k, v ++ [line]) :: d')
      else d'' ← od_append key line d'; Some ((k, v) :: d'')
  end.

(** [chapter_data] and [current_chapter] before the first line. *)
Definition initial : OrderedDict * string :=
  (od_set "Introduction" [] [], "Introduction").

(** The body of [for line in f] of [parse_text_file]. *)
Definition text_line_step (st : OrderedDict * string) (line : string)
    : option (OrderedDict * string) :=
  let '(chapter_data, current_chapter) := st in
  let line := strip line in
  if negb (truthy line) then Some st
  else if is_chapter_header line then Some (od_set line [] chapter_data, line)
  else
    chapter_data ← od_append current_chapter line chapter_data;
    Some (chapter_data, current_chapter).

(** A loop whose body can raise. *)
Fixpoint for_each {S X : Type} (body : S → X → option S) (xs : list X) (st : S)
    : option S :=
  match xs with
  | [] => Some st
  | x :: xs' => st' ← body st x; for_each body xs' st'
  end.

(** [parse_text_file], from the lines that the file object yields. *)
Definition parse_text_file (lines : list string) : option OrderedDict :=
  st ← for_each text_line_step lines initial; Some st.1.

(** The body of [for line in text.splitlines()] of [parse_pdf]. *)
Definition pdf_line_step (st : OrderedDict * string) (line : string)
    : option (OrderedDict * string) :=
  let '(chapter_data, current_chapter) := st in
  if is_page_number line then Some st
  else if is_chapter_header line then
    Some (od_set (strip line) [] chapter_data, strip line)
  else
    chapter_data ← od_append current_chapter line chapter_data;
    Some (chapter_data, current_chapter).

(** The body of [for page_index in range(len(reader.pages))]; [text] is
    what [extract_text()] returned, [None] or a string. *)
Definition pdf_page_step (st : OrderedDict * string) (text : option string)
    : option (OrderedDict * string) :=
  match text with
  | None => Some st
  | Some text =>
      if negb (truthy text) then Some st
      else for_each pdf_line_step (splitlines text) st
  end.

(** [parse_pdf], from the texts of the pages. *)
Definition parse_pdf (pages : list (option string)) : option OrderedDict :=
  st ← for_each pdf_page_step pages initial; Some st.1.

(** The conversion of [main]: one record for each item of the dictionary. *)
Definition structured_array (structured_text : OrderedDict)
    : list Pipeline.Chapter :=
  List.map (λ item, Pipeline.mkChapter item.1 item.2) structured_text.

End ReadPDF.

(** ** [main.py]: the batch driver

    [main], from the names that [Path(input_dir).glob("*.pkl")] returned.
    [load] stands for [open] and [pickle.load] at the start of
    [create_audiobook_from_pickle], [None] when they raise. Directories
    are not modelled: a path exists when it holds a file. *)
Module Batch.
Import PyStr PyStrMore Pipeline.

Section Driver.
Context {Audio : Type}.
Context (silent : Audio) (audio_add : Audio → Audio → Audio)
        (audio_len : Audio → Z).
Context (tts_to_file : nat → string → @Outcome Audio)
        (transcribe : nat → @File Audio → option string)
        (export : Audio → @Outcome Audio)
        (ffmpeg : gmap string (@File Audio) → string → @Outcome Audio)
        (load : string → option (list Chapter)).

Definition input_dir : string := "pickle_files".
Definition output_dir : string := "audiobooks".

(** The output path of a pickle file. *)
Definition output_path_of (pickle_name : string) : string :=
  let output_filename := stem pickle_name +:+ ".m4b" in
  os_path_join output_dir output_filename.

(** The body of [for pickle_file in pickle_files]: the [try] statement
    turns every exception into [continue]. *)
Definition document_step (w : @World Audio) (pickle_name : string)
    : option (@World Audio) :=
  let output_path := output_path_of pickle_name in
  match fs w !! output_path with
  | Some _ => Some w
  | None =>
      match load (os_path_join input_dir pickle_name) with
      | None => Some w
      | Some chapters =>
          r ← create_audiobook_from_pickle silent audio_add audio_len
                tts_to_file transcribe export ffmpeg chapters output_path w;
          Some r.1
      end
  end.

Definition main (pickle_files : list string) (w : @World Audio)
    : option (@World Audio) :=
  ReadPDF.for_each document_step pickle_files w.

End Driver.
End Batch.

Module ReadPDFAux.
Import PyStr PyStrMore ReadPDF.

(** The lines that [parse_text_file] looks at: stripped and not empty. *)
Definition kept_lines (lines : list string) : list string :=
  List.filter truthy (List.map strip lines).

(** The titles and the content lines among them, in their order. *)
Definition headers (lines : list string) : list string :=
  List.filter is_chapter_header (kept_lines lines).

Definition contents (lines : list string) : list string :=
  List.filter (λ line, negb (is_chapter_header line)) (kept_lines lines).

(** [d.get(key)] *)
Fixpoint od_get (key : string) (d : OrderedDict) : option (list string) :=
  match d with
  | [] => None
  | (k, v) :: d' => if String.eqb k key then Some v else od_get key d'
  end.

(** The state of a parse loop is well formed: the current chapter is a
    key, the keys are distinct and start with ["Introduction"], every key
    satisfies [title_ok] and every stored line [line_ok]. *)
Definition parse_inv (title_ok line_ok : string → Prop)
    (st : OrderedDict * string) : Prop :=
  st.2 ∈ List.map fst st.1
  ∧ NoDup (List.map fst st.1)
  ∧ hd_error (List.map fst st.1) = Some "Introduction"
  ∧ Forall (λ item, title_ok item.1 ∧ Forall line_ok item.2) st.1.

(** What [parse_text_file] may use as a title and store as a line. *)
Definition text_title (lines : list string) (key : string) : Prop :=
  key = "Introduction" ∨ key ∈ headers lines.

Definition text_line (lines : list string) (line : string) : Prop :=
  line ∈ contents lines.

(** The same for [parse_pdf]. *)
Definition pdf_title (key : string) : Prop :=
  key = "Introduction" ∨ (is_chapter_header key = true ∧ strip key = key).

Definition pdf_line (line : string) : Prop :=
  is_page_number line = false ∧ is_chapter_header line = false.

End ReadPDFAux.

(** ** [readPDF.py]: the script

    [main], from [sys.argv] on. The three readers stand for what the
    parsers take from the file system: the texts of the pages of a PDF
    file, the lines of a text file, and the whole of [parse_epub]; [None]
    is an exception raised there. What [main] prints is left out. *)
Module ReadPDFScript.
Import PyStr PyStrMore ReadPDF.

(** How [main] ends: [Dumped path data] is the call of [pickle.dump] with
    [data] on the file opened at [path]. *)
Inductive Exit : Type :=
  | SystemExit (code : Z)
  | IndexError
  | KeyError
  | ReadError
  | Dumped (output_path : string) (structured_array : list Pipeline.Chapter).

Section Script.
Context (pdf_pages : string → option (list (option string)))
        (parse_epub : string → option OrderedDict)
        (text_lines : string → option (list string)).

(** The three branches on the extension of [file_path]; the outer option
    is the exception, if any. *)
Definition structured_text (file_path : string) : Exit + OrderedDict :=
  if endswith (lower file_path) ".pdf" then
    match pdf_pages file_path with
    | None => inl ReadError
    | Some pages =>
        match parse_pdf pages with
        | None => inl KeyError
        | Some d => inr d
        end
    end
  else if endswith (lower file_path) ".epub" then
    match parse_epub file_path with
    | None => inl ReadError
    | Some d => inr d
    end
  else
    match text_lines file_path with
    | None => inl ReadError
    | Some lines =>
        match parse_text_file lines with
        | None => inl KeyError
        | Some d => inr d
        end
    end.

Definition main (argv : list string) : Exit :=
  if (length argv <? 2)%nat then SystemExit 1
  else
    match argv !! 1%nat with
    | None => IndexError
    | Some file_path =>
        match argv !! 2%nat with
        | None => IndexError
        | Some output_path =>
            match structured_text file_path with
            | inl e => e
            | inr d =>
                Dumped (replace output_path ".json" ".pkl")
                       (structured_array d)
            end
        end
    end.

End Script.
End ReadPDFScript.

(** * Properties *)

(** ** [difflib.SequenceMatcher]: blocks stay within their ranges *)
Module DifflibFacts.
Import Difflib DifflibAux.
Local Open Scope nat_scope.

Section Ranges.
Context {A : Type} `{Countable A}.
Implicit Types (a b : list A) (b2j : gmap A (list nat)).
Implicit Types (j2len : gmap nat nat) (best : Match).

Lemma j2lenget_bound blo bhi rows j2len j :
  j2len_ok blo bhi rows j2len → blo ≤ j →
  j2lenget j2len j ≤ j - blo ∧ j2lenget j2len j ≤ rows.
Proof.
  intros Hok Hj. destruct j as [|j']; simpl; [lia|].
  destruct (j2len !! j') as [k|] eqn:E; simpl; [|lia].
  apply Hok in E. lia.
Qed.

Lemma inner_loop_range alo blo bhi i j2len js :
  alo ≤ i → j2len_ok blo bhi (i - alo) j2len →
  ∀ newj2len best,
    j2len_ok blo bhi (i + 1 - alo) newj2len →
    best_ok alo (i + 1) blo bhi best →
    let r := inner_loop blo bhi i j2len js newj2len best in
    j2len_ok blo bhi (i + 1 - alo) r.1 ∧ best_ok alo (i + 1) blo bhi r.2.
Proof.
  intros Hi Hold. induction js as [|j js IH]; intros new best Hnew Hbest;
    cbn [inner_loop].
  - done.
  - destruct (j <? blo) eqn:Elo; [by apply IH|].
    destruct (bhi <=? j) eqn:Ehi; [done|].
    apply Nat.ltb_ge in Elo. apply Nat.leb_gt in Ehi.
    destruct (j2lenget_bound blo bhi (i - alo) j2len j Hold Elo) as [Hk1 Hk2].
    apply IH.
    + intros j0 k0. rewrite lookup_insert. case_decide as Ej.
      * intros [= <-]. subst j0. lia.
      * apply Hnew.
    + destruct (size best <? j2lenget j2len j + 1); [|done].
      unfold best_ok; simpl. lia.
Qed.

Lemma best_ok_weaken alo hi hi' blo bhi best :
  hi ≤ hi' → best_ok alo hi blo bhi best → best_ok alo hi' blo bhi best.
Proof. destruct best as [[bi bj] bs]. unfold best_ok; simpl. lia. Qed.

Lemma outer_loop_range a b2j alo blo bhi n :
  ∀ i st,
    alo ≤ i → j2len_ok blo bhi (i - alo) st.1 → best_ok alo i blo bhi st.2 →
    best_ok alo (i + n) blo bhi
      (fold_left (outer_step a b2j blo bhi) (seq i n) st).2.
Proof.
  induction n as [|n IH]; intros i st Hi Hj Hb; simpl.
  - by rewrite Nat.add_0_r.
  - replace (i + S n) with (S i + n) by lia.
    unfold outer_step at 2.
    edestruct (inner_loop_range alo blo bhi i st.1
                 (match a !! i with Some x => default [] (b2j !! x) | None => [] end)
                 Hi Hj ∅ st.2) as [Hj' Hb'].
    + intros j k. by rewrite lookup_empty.
    + eapply best_ok_weaken; [|exact Hb]. lia.
    + apply IH; [lia| |].
      * replace (S i - alo) with (i + 1 - alo) by lia. exact Hj'.
      * replace (S i) with (i + 1) by lia. exact Hb'.
Qed.

Lemma extend_left_range a b alo ahi blo bhi junk besti :
  ∀ bestj bestsize,
    best_ok alo ahi blo bhi (besti, bestj, bestsize) →
    best_ok alo ahi blo bhi (extend_left a b alo blo junk besti bestj bestsize).
Proof.
  induction besti as [|besti' IH]; intros bestj bestsize Hb; simpl; [done|].
  destruct (_ && _) eqn:E; [|done].
  apply IH. repeat (apply andb_prop in E as [E ?]).
  apply Nat.ltb_lt in E. assert (blo < bestj) by by apply Nat.ltb_lt.
  unfold best_ok in *; simpl in *; lia.
Qed.

Lemma extend_right_range a b ahi bhi junk fuel besti bestj :
  ∀ bestsize,
    besti + bestsize ≤ ahi → bestj + bestsize ≤ bhi →
    let k := extend_right a b ahi bhi junk fuel besti bestj bestsize in
    bestsize ≤ k ∧ besti + k ≤ ahi ∧ bestj + k ≤ bhi.
Proof.
  induction fuel as [|fuel IH]; intros bestsize Ha Hb; simpl; [lia|].
  destruct (_ && _) eqn:E; [|lia].
  repeat (apply andb_prop in E as [E ?]).
  apply Nat.ltb_lt in E. assert (bestj + bestsize < bhi) by by apply Nat.ltb_lt.
  specialize (IH (bestsize + 1)). simpl in IH. lia.
Qed.

(** More turns than [ahi - (besti + bestsize)] change nothing: the guard
    of the loop fails before they are used. *)
Lemma extend_right_fuel a b ahi bhi junk fuel besti bestj :
  ∀ bestsize,
    ahi - (besti + bestsize) ≤ fuel →
    extend_right a b ahi bhi junk fuel besti bestj bestsize
    = extend_right a b ahi bhi junk (ahi - (besti + bestsize))
        besti bestj bestsize.
Proof.
  induction fuel as [|fuel IH]; intros bestsize Hfuel.
  - by replace (ahi - (besti + bestsize)) with 0 by lia.
  - destruct (ahi - (besti + bestsize)) as [|n] eqn:En; cbn [extend_right].
    + assert ((besti + bestsize <? ahi) = false) as ->
        by (apply Nat.ltb_ge; lia).
      done.
    + destruct (_ && _); [|done].
      rewrite IH by lia. f_equal. lia.
Qed.

(** A block found in [a[alo:ahi]] and [b[blo:bhi]] lies within them. *)
Lemma find_longest_match_range a b b2j alo ahi blo bhi :
  alo ≤ ahi → blo ≤ bhi →
  best_ok alo ahi blo bhi (find_longest_match a b b2j alo ahi blo bhi).
Proof.
  intros Ha Hb. unfold find_longest_match.
  pose proof (outer_loop_range a b2j alo blo bhi (ahi - alo) alo
                (∅, (alo, blo, 0))) as H0.
  destruct (fold_left _ _ _) as [j2len [[bi bj] bs]]. simpl in H0.
  replace (alo + (ahi - alo)) with ahi in H0 by lia.
  assert (best_ok alo ahi blo bhi (bi, bj, bs)) as H1.
  { apply H0; [lia| |unfold best_ok; simpl; lia].
    intros j k. by rewrite lookup_empty. }
  clear H0.
  apply (extend_left_range a b alo ahi blo bhi false) in H1.
  destruct (extend_left a b alo blo false bi bj bs) as [[bi1 bj1] bs1].
  pose proof (extend_right_range a b ahi bhi false (ahi - (bi1 + bs1)) bi1 bj1 bs1) as H2.
  simpl in H2. set (bs2 := extend_right _ _ _ _ false _ _ _ _) in *.
  assert (best_ok alo ahi blo bhi (bi1, bj1, bs2)) as H3.
  { unfold best_ok in *; simpl in *; lia. }
  clear H1 H2.
  apply (extend_left_range a b alo ahi blo bhi true) in H3.
  destruct (extend_left a b alo blo true bi1 bj1 bs2) as [[bi3 bj3] bs3].
  pose proof (extend_right_range a b ahi bhi true (ahi - (bi3 + bs3)) bi3 bj3 bs3) as H4.
  simpl in H4. unfold best_ok in *; simpl in *; lia.
Qed.

End Ranges.
Section Blocks.
Context {A : Type} `{Countable A}.
Implicit Types (a b : list A) (b2j : gmap A (list nat)).

Lemma turns_cons alo ahi blo bhi queue :
  turns ((alo, ahi, blo, bhi) :: queue) = 2 * (ahi - alo) + 1 + turns queue.
Proof. reflexivity. Qed.

Lemma a_span_cons alo ahi blo bhi queue :
  a_span ((alo, ahi, blo, bhi) :: queue) = ahi - alo + a_span queue.
Proof. reflexivity. Qed.

Lemma b_span_cons alo ahi blo bhi queue :
  b_span ((alo, ahi, blo, bhi) :: queue) = bhi - blo + b_span queue.
Proof. reflexivity. Qed.

Lemma item_ok_intro alo ahi blo bhi :
  alo ≤ ahi → blo ≤ bhi → item_ok (alo, ahi, blo, bhi).
Proof. by split. Qed.

(** The [while queue] loop ends within [turns queue] turns, and the blocks
    it adds fit in the ranges that were queued. *)
Lemma queue_loop_total a b b2j fuel :
  ∀ queue acc,
    Forall item_ok queue → turns queue ≤ fuel →
    ∃ blocks,
      queue_loop a b b2j fuel queue acc = Some blocks
      ∧ sum_list_with size blocks ≤ sum_list_with size acc + a_span queue
      ∧ sum_list_with size blocks ≤ sum_list_with size acc + b_span queue.
Proof.
  induction fuel as [|fuel IH]; intros [|[[[alo ahi] blo] bhi] queue] acc Hq Ht.
  - exists acc. simpl. split; [done|lia].
  - rewrite turns_cons in Ht. lia.
  - exists acc. simpl. split; [done|lia].
  - apply Forall_cons in Hq as [[Ha Hb] Hq]. simpl in Ha, Hb.
    rewrite turns_cons in Ht. rewrite a_span_cons, b_span_cons.
    cbn [queue_loop].
    pose proof (find_longest_match_range a b b2j alo ahi blo bhi Ha Hb) as Hr.
    destruct (find_longest_match a b b2j alo ahi blo bhi) as [[i j] k].
    unfold best_ok in Hr. simpl in Hr.
    destruct (k =? 0) eqn:Ek.
    + destruct (IH queue acc Hq) as (blocks & -> & ? & ?); [lia|].
      exists blocks. split; [done|lia].
    + apply Nat.eqb_neq in Ek.
      set (q1 := if (alo <? i) && (blo <? j) then _ else _).
      set (q2 := if (i + k <? ahi) && (j + k <? bhi) then _ else _).
      assert (Forall item_ok q1 ∧ turns q1 ≤ turns queue + 2 * (i - alo) + 1
              ∧ a_span q1 ≤ a_span queue + (i - alo)
              ∧ b_span q1 ≤ b_span queue + (j - blo)) as (Hq1 & Ht1 & Ha1 & Hb1).
      { subst q1. destruct ((alo <? i) && (blo <? j)).
        - rewrite turns_cons, a_span_cons, b_span_cons.
          split; [apply Forall_cons; split; [apply item_ok_intro; lia|done]|lia].
        - split; [done|lia]. }
      assert (Forall item_ok q2 ∧ turns q2 ≤ turns q1 + 2 * (ahi - (i + k)) + 1
              ∧ a_span q2 ≤ a_span q1 + (ahi - (i + k))
              ∧ b_span q2 ≤ b_span q1 + (bhi - (j + k))) as (Hq2 & Ht2 & Ha2 & Hb2).
      { subst q2. destruct ((i + k <? ahi) && (j + k <? bhi)).
        - rewrite turns_cons, a_span_cons, b_span_cons.
          split; [apply Forall_cons; split; [apply item_ok_intro; lia|done]|lia].
        - split; [done|lia]. }
      destruct (IH q2 (acc ++ [(i, j, k)]) Hq2) as (blocks & -> & Hsa & Hsb); [lia|].
      rewrite sum_list_with_app in Hsa, Hsb.
      change (sum_list_with size [(i, j, k)]) with (k + 0) in Hsa, Hsb.
      exists blocks. split; [done|lia].
Qed.

Lemma collapse_step_sum st m :
  let st' := collapse_step st m in
  size st'.1 + sum_list_with size st'.2
  = size st.1 + sum_list_with size st.2 + size m.
Proof.
  destruct st as [[[i1 j1] k1] non_adjacent], m as [[i2 j2] k2].
  unfold collapse_step, size. simpl.
  destruct (_ && _); simpl; [lia|].
  destruct (k1 =? 0) eqn:Ek; simpl.
  - apply Nat.eqb_eq in Ek. lia.
  - rewrite sum_list_with_app. simpl. lia.
Qed.

Lemma collapse_fold_sum ms :
  ∀ st,
    let st' := fold_left collapse_step ms st in
    size st'.1 + sum_list_with size st'.2
    = size st.1 + sum_list_with size st.2 + sum_list_with size ms.
Proof.
  induction ms as [|m ms IH]; intros st; simpl; [lia|].
  specialize (IH (collapse_step st m)). simpl in IH. rewrite IH.
  pose proof (collapse_step_sum st m) as Hs. simpl in Hs. lia.
Qed.

(** Merging adjacent blocks and adding the sentinel [(la, lb, 0)] keeps the
    number of matched characters. *)
Lemma collapse_sum la lb ms :
  sum_list_with size (collapse la lb ms) = sum_list_with size ms.
Proof.
  unfold collapse.
  pose proof (collapse_fold_sum ms ((0, 0, 0), [])) as Hs. simpl in Hs.
  destruct (fold_left collapse_step ms _) as [[[i1 j1] k1] non_adjacent].
  unfold size in *. simpl in Hs.
  rewrite sum_list_with_app. simpl.
  destruct (k1 =? 0) eqn:Ek.
  - apply Nat.eqb_eq in Ek. lia.
  - rewrite sum_list_with_app. simpl. lia.
Qed.

(** [get_matching_blocks] returns, and the blocks it returns match at most
    [len(a)] and at most [len(b)] characters. *)
Lemma get_matching_blocks_total a b :
  ∃ blocks,
    get_matching_blocks a b = Some blocks
    ∧ sum_list_with size blocks ≤ length a
    ∧ sum_list_with size blocks ≤ length b.
Proof.
  unfold get_matching_blocks.
  destruct (queue_loop_total a b (chain_b b) (2 * length a + 1)
              [(0, length a, 0, length b)] []) as (blocks & -> & Ha & Hb).
  - apply Forall_cons. split; [apply item_ok_intro; lia|done].
  - rewrite turns_cons. change (turns []) with 0. lia.
  - rewrite a_span_cons in Ha. rewrite b_span_cons in Hb.
    change (a_span []) with 0 in Ha. change (b_span []) with 0 in Hb.
    change (sum_list_with size []) with 0 in Ha, Hb.
    eexists. split; [done|].
    rewrite collapse_sum, (merge_sort_Permutation match_le blocks). lia.
Qed.

Lemma Zpos_of_nat n : n ≠ 0 → Z.pos (Pos.of_nat n) = Z.of_nat n.
Proof. intros Hn. by rewrite <- positive_nat_Z, Nat2Pos.id. Qed.

(** [ratio] returns a number between 0 and 1. *)
Lemma ratio_total a b :
  ∃ q, ratio a b = Some q ∧ (0 <= q)%Q ∧ (q <= 1)%Q.
Proof.
  unfold ratio.
  destruct (get_matching_blocks_total a b) as (blocks & -> & Ha & Hb). simpl.
  eexists. split; [done|]. unfold calculate_ratio.
  destruct (length a + length b =? 0) eqn:E; [split; discriminate|].
  apply Nat.eqb_neq in E.
  unfold Qle. cbn [Qnum Qden].
  rewrite Zpos_of_nat by done.
  split; lia.
Qed.

End Blocks.
Section Chain.
Context {A : Type} `{Countable A}.
Implicit Types (a b x : list A) (b2j : gmap A (list nat)).

Lemma chain_from_lookup b : ∀ i b2j c,
  default [] (chain_from i b b2j !! c)
  = default [] (b2j !! c) ++ positions_from i c b.
Proof.
  induction b as [|e b IH]; intros i b2j c; simpl.
  - by rewrite app_nil_r.
  - rewrite IH. rewrite lookup_insert. destruct (decide (e = c)) as [->|Hne].
    + simpl. by rewrite <- app_assoc.
    + done.
Qed.

(** An element of [b] either lost its entry to the purge of popular
    elements or has all its positions in [b2j]. *)
Lemma chain_b_lookup b c :
  default [] (chain_b b !! c) = []
  ∨ default [] (chain_b b !! c) = positions_from 0 c b.
Proof.
  unfold chain_b, purge_popular.
  pose proof (chain_from_lookup b 0 ∅ c) as Hall.
  rewrite lookup_empty in Hall. simpl in Hall.
  destruct (200 <=? length b); [|by right].
  destruct (filter _ _ !! c) as [l|] eqn:E; [|by left].
  apply map_lookup_filter_Some in E as [E _].
  right. rewrite E in Hall. exact Hall.
Qed.

Lemma positions_from_elem b : ∀ i c j,
  j ∈ positions_from i c b → i ≤ j ∧ b !! (j - i) = Some c.
Proof.
  induction b as [|e b IH]; intros i c j Hj; simpl in Hj.
  - by apply elem_of_nil in Hj.
  - assert (j ∈ positions_from (S i) c b → i ≤ j ∧ (e :: b) !! (j - i) = Some c)
      as Hrest.
    { intros Hin. apply IH in Hin as [Hle Hlk]. split; [lia|].
      replace (j - i) with (S (j - S i)) by lia. exact Hlk. }
    destruct (decide (e = c)) as [->|Hne]; [|by apply Hrest].
    apply elem_of_cons in Hj as [->|Hin]; [|by apply Hrest].
    split; [lia|]. by rewrite Nat.sub_diag.
Qed.

Lemma positions_from_split b : ∀ i c k,
  b !! k = Some c →
  ∃ L R, positions_from i c b = L ++ (i + k) :: R
         ∧ Forall (λ j, j < i + k) L ∧ Forall (λ j, i + k < j) R.
Proof.
  induction b as [|e b IH]; intros i c k Hk; [done|].
  destruct k as [|k]; simpl in Hk.
  - injection Hk as ->. simpl. rewrite decide_True by done.
    exists [], (positions_from (S i) c b). rewrite Nat.add_0_r.
    split; [done|]. split; [constructor|].
    apply Forall_forall. intros j Hj. apply positions_from_elem in Hj. lia.
  - destruct (IH (S i) c k Hk) as (L & R & Heq & HL & HR).
    replace (S i + k) with (i + S k) in * by lia. simpl. rewrite Heq.
    destruct (decide (e = c)).
    + exists (i :: L), R. split; [done|]. split; [|done].
      constructor; [lia|done].
    + by exists L, R.
Qed.

End Chain.

(** ** [difflib.SequenceMatcher]: a sequence against itself *)
Section Diagonal.
Context {A : Type} `{Countable A}.
Variables (x : list A) (b2j : gmap A (list nat)).
Hypothesis Hb2j : ∀ c,
  default [] (b2j !! c) = [] ∨ default [] (b2j !! c) = positions_from 0 c x.

Lemma inner_loop_app blo bhi i j2len l1 l2 : ∀ newj2len best,
  Forall (λ j, j < bhi) l1 →
  inner_loop blo bhi i j2len (l1 ++ l2) newj2len best
  = inner_loop blo bhi i j2len l2
      (inner_loop blo bhi i j2len l1 newj2len best).1
      (inner_loop blo bhi i j2len l1 newj2len best).2.
Proof.
  induction l1 as [|j l1 IH]; intros new best Hl; [done|].
  apply Forall_cons in Hl as [Hj Hl]. cbn [app inner_loop].
  destruct (j <? blo); [by apply IH|].
  destruct (bhi <=? j) eqn:E; [apply Nat.leb_le in E; lia|].
  by apply IH.
Qed.

(** Positions whose length does not beat the best block leave it as it is. *)
Lemma inner_loop_keep bhi i j2len js : ∀ newj2len best,
  Forall (λ j, j < bhi ∧ j2lenget j2len j + 1 ≤ size best) js →
  let r := inner_loop 0 bhi i j2len js newj2len best in
  r.2 = best
  ∧ (∀ j, j ∉ js → r.1 !! j = newj2len !! j)
  ∧ (∀ j, j ∈ js → r.1 !! j = Some (j2lenget j2len j + 1)).
Proof.
  induction js as [|j0 js IH]; intros new best Hjs; cbn [inner_loop].
  - split; [done|]. split; [done|]. intros j Hj. by apply elem_of_nil in Hj.
  - apply Forall_cons in Hjs as [[Hlt Hk] Hjs].
    change (j0 <? 0) with false. cbv iota.
    destruct (bhi <=? j0) eqn:E; [apply Nat.leb_le in E; lia|].
    destruct (size best <? j2lenget j2len j0 + 1) eqn:Eb;
      [apply Nat.ltb_lt in Eb; lia|].
    destruct (IH (<[j0 := j2lenget j2len j0 + 1]> new) best Hjs) as (Hb & Hout & Hin).
    split; [done|]. split.
    + intros j Hj. apply not_elem_of_cons in Hj as [Hne Hj].
      rewrite Hout by done. by rewrite lookup_insert_ne.
    + intros j Hj. destruct (decide (j ∈ js)) as [Hjin|Hjout]; [by apply Hin|].
      apply elem_of_cons in Hj as [->|Hj]; [|done].
      rewrite Hout by done. by rewrite lookup_insert_eq.
Qed.

Lemma row_js_live i c :
  x !! i = Some c → default [] (b2j !! c) ≠ [] →
  run_len x b2j (S i) = run_len x b2j i + 1.
Proof.
  intros Hx Hne. cbn [run_len]. unfold row_js. rewrite Hx.
  by destruct (default [] (b2j !! c)).
Qed.

Lemma j2lenget_run i j2len best j :
  diag_inv x b2j i (j2len, best) →
  j2lenget j2len j ≤ run_len x b2j j ∧ j2lenget j2len j ≤ run_len x b2j i.
Proof.
  intros (H1 & _). destruct j as [|j]; simpl; [lia|].
  destruct (j2len !! j) as [k|] eqn:E; simpl; [|lia].
  apply H1 in E. simpl in E. cbn [run_len]. lia.
Qed.

(** One row of the table keeps the invariant. *)
Lemma outer_step_diag i st :
  i < length x → diag_inv x b2j i st →
  diag_inv x b2j (S i) (outer_step x b2j 0 (length x) st i).
Proof.
  intros Hi Hinv. destruct st as [j2len best].
  destruct (lookup_lt_is_Some_2 x i Hi) as [c Hc].
  unfold outer_step. rewrite Hc. cbn [fst snd].
  destruct Hinv as (H1 & H2 & H3 & H4) eqn:Einv. clear Einv.
  cbn [fst snd] in H1, H2, H3, H4.
  destruct (Hb2j c) as [Hnil|Hpos].
  - rewrite Hnil. cbn [inner_loop].
    assert (run_len x b2j (S i) = 0) as Hrun.
    { cbn [run_len]. unfold row_js. by rewrite Hc, Hnil. }
    split; [|split; [|split]]; cbn [fst snd].
    + intros j k. by rewrite lookup_empty.
    + unfold j2lenget. by rewrite lookup_empty, Hrun.
    + done.
    + intros i' Hi'. destruct (decide (i' = S i)) as [->|]; [lia|].
      apply H4. lia.
  - destruct (positions_from_split x 0 c i Hc) as (L & R & Hsplit & HL & HR).
    simpl in Hsplit, HL, HR.
    assert (default [] (b2j !! c) ≠ []) as Hlive.
    { rewrite Hpos, Hsplit. by destruct L. }
    assert (∀ j, j ∈ L ++ i :: R → j < length x ∧ x !! j = Some c) as Hmem.
    { intros j Hj. rewrite <- Hsplit in Hj.
      apply positions_from_elem in Hj as [_ Hj]. rewrite Nat.sub_0_r in Hj.
      split; [by apply lookup_lt_Some in Hj|done]. }
    assert (∀ j, j ∈ L ++ i :: R →
              j2lenget j2len j + 1 ≤ run_len x b2j (S j)
              ∧ j2lenget j2len j + 1 ≤ run_len x b2j (S i)) as Hbound.
    { intros j Hj. apply Hmem in Hj as [_ Hj].
      rewrite (row_js_live j c Hj Hlive), (row_js_live i c Hc Hlive).
      pose proof (j2lenget_run i j2len best j (conj H1 (conj H2 (conj H3 H4)))).
      lia. }
    pose proof (row_js_live i c Hc Hlive) as Hrun.
    rewrite Hpos, Hsplit.
    rewrite inner_loop_app.
    2: { eapply Forall_impl; [exact HL|]. simpl. lia. }
    destruct (inner_loop_keep (length x) i j2len L ∅ best) as (HbL & HoutL & HinL).
    { apply Forall_forall. intros j Hj.
      assert (j < i) by (by eapply Forall_forall in HL).
      assert (j ∈ L ++ i :: R) as Hj' by (apply elem_of_app; by left).
      split; [by apply Hmem|].
      etrans; [apply (proj1 (Hbound j Hj'))|]. apply H4. lia. }
    rewrite HbL. set (newL := (inner_loop 0 (length x) i j2len L ∅ best).1) in *.
    cbn [inner_loop]. change (i <? 0) with false. cbv iota.
    destruct (length x <=? i) eqn:E; [apply Nat.leb_le in E; lia|].
    set (k := j2lenget j2len i + 1).
    set (best1 := if size best <? k then _ else _).
    assert (k = run_len x b2j (S i)) as Hk by (subst k; lia).
    assert (size best ≤ size best1 ∧ k ≤ size best1 ∧ best1.1.1 = best1.1.2)
      as (Hge & Hkb & Hdiag).
    { subst best1. destruct (size best <? k) eqn:Eb.
      - apply Nat.ltb_lt in Eb. unfold size in *. simpl. lia.
      - apply Nat.ltb_ge in Eb. lia. }
    assert (Forall (λ j, j < length x ∧ j2lenget j2len j + 1 ≤ size best1) R)
      as HallR.
    { apply Forall_forall. intros j Hj.
      assert (j ∈ L ++ i :: R) as Hj'.
      { apply elem_of_app. right. by apply elem_of_cons; right. }
      split; [by apply Hmem|]. pose proof (proj2 (Hbound j Hj')). lia. }
    pose proof (inner_loop_keep (length x) i j2len R (<[i := k]> newL) best1 HallR)
      as HkeepR. cbv zeta in HkeepR.
    destruct (inner_loop 0 (length x) i j2len R (<[i := k]> newL) best1)
      as [newR bestR].
    cbn [fst snd] in HkeepR. destruct HkeepR as (HbR & HoutR & HinR).
    assert (i ∉ R) as HiR.
    { intros Hin. eapply Forall_forall in HR; [|exact Hin]. lia. }
    split; [|split; [|split]]; cbn [fst snd].
    + intros j k0 Hjk. destruct (decide (j ∈ R)) as [HjR|HjR].
      * rewrite (HinR j HjR) in Hjk. injection Hjk as <-.
        apply Hbound, elem_of_app. right. by apply elem_of_cons; right.
      * rewrite (HoutR j HjR) in Hjk. rewrite lookup_insert in Hjk.
        destruct (decide (i = j)) as [<-|Hne].
        { injection Hjk as <-. lia. }
        destruct (decide (j ∈ L)) as [HjL|HjL].
        { rewrite (HinL j HjL) in Hjk. injection Hjk as <-.
          apply Hbound, elem_of_app. by left. }
        rewrite (HoutL j HjL), lookup_empty in Hjk. done.
    + unfold j2lenget. rewrite (HoutR i HiR), lookup_insert_eq. exact Hk.
    + rewrite HbR. done.
    + intros i' Hi'. rewrite HbR.
      destruct (decide (i' = S i)) as [->|]; [lia|].
      etrans; [apply H4|]; lia.
Qed.

Lemma outer_loop_diag m : ∀ i st,
  i + m ≤ length x → diag_inv x b2j i st →
  diag_inv x b2j (i + m)
    (fold_left (outer_step x b2j 0 (length x)) (seq i m) st).
Proof.
  induction m as [|m IH]; intros i st Hi Hinv; simpl.
  - by rewrite Nat.add_0_r.
  - replace (i + S m) with (S i + m) by lia.
    apply IH; [lia|]. apply outer_step_diag; [lia|done].
Qed.

Lemma same_at_diag i : i < length x → same_at x x i i = true.
Proof.
  intros Hi. destruct (lookup_lt_is_Some_2 x i Hi) as [c Hc].
  unfold same_at. rewrite Hc. by apply bool_decide_eq_true.
Qed.

Lemma extend_left_diag besti : ∀ bestsize,
  besti ≤ length x →
  extend_left x x 0 0 false besti besti bestsize = (0, 0, bestsize + besti).
Proof.
  induction besti as [|besti IH]; intros bestsize Hi; cbn [extend_left].
  - by rewrite Nat.add_0_r.
  - replace (S besti - 1) with besti by lia.
    rewrite same_at_diag by lia. simpl.
    rewrite IH by lia. f_equal. lia.
Qed.

Lemma extend_right_diag fuel : ∀ bestsize,
  bestsize + fuel = length x →
  extend_right x x (length x) (length x) false fuel 0 0 bestsize = length x.
Proof.
  induction fuel as [|fuel IH]; intros bestsize Hs; cbn [extend_right]; [lia|].
  cbn [Nat.add]. rewrite same_at_diag by lia.
  assert ((bestsize <? length x) = true) as -> by (apply Nat.ltb_lt; lia).
  simpl. apply IH. lia.
Qed.

(** The longest block of [x] against itself is [x]. *)
Lemma find_longest_match_self :
  find_longest_match x x b2j 0 (length x) 0 (length x) = (0, 0, length x).
Proof.
  unfold find_longest_match. rewrite Nat.sub_0_r.
  pose proof (outer_loop_diag (length x) 0 (∅, (0, 0, 0))) as Hd.
  pose proof (outer_loop_range x b2j 0 0 (length x) (length x) 0 (∅, (0, 0, 0)))
    as Hr.
  destruct (fold_left _ _ _) as [j2len [[bi bj] bs]].
  destruct Hd as (_ & _ & Hd & _); [simpl; lia| |].
  { split; [|split; [|split]]; cbn [fst snd].
    - intros j k. by rewrite lookup_empty.
    - done.
    - done.
    - intros i' Hi'. replace i' with 0 by lia. simpl. lia. }
  cbn [fst snd] in Hd, Hr. subst bj.
  assert (bi + bs ≤ length x) as Hle.
  { destruct Hr as (_ & Hr & _); [lia| |unfold best_ok; simpl; lia|exact Hr].
    intros j k. by rewrite lookup_empty. }
  rewrite extend_left_diag by lia.
  rewrite extend_right_diag by lia.
  cbn [extend_left]. by rewrite Nat.sub_diag.
Qed.

End Diagonal.

Section Self.
Context {A : Type} `{Countable A}.

Lemma merge_sort_singleton (m : Match) : merge_sort match_le [m] = [m].
Proof. reflexivity. Qed.

(** A sequence matches itself in one block. *)
Lemma get_matching_blocks_self (x : list A) :
  ∃ blocks, get_matching_blocks x x = Some blocks
            ∧ sum_list_with size blocks = length x.
Proof.
  unfold get_matching_blocks.
  replace (2 * length x + 1) with (S (2 * length x)) by lia.
  cbn [queue_loop].
  rewrite (find_longest_match_self x (chain_b x) (chain_b_lookup x)).
  destruct (length x =? 0) eqn:E.
  - apply Nat.eqb_eq in E.
    destruct (2 * length x); simpl; eexists; (split; [done|]);
      by rewrite collapse_sum.
  - rewrite Nat.ltb_irrefl. cbn [andb Nat.add].
    rewrite Nat.ltb_irrefl. cbn [app].
    destruct (2 * length x); simpl; eexists; (split; [done|]);
      rewrite collapse_sum, merge_sort_singleton; unfold size; simpl; lia.
Qed.

(** A sequence is as similar to itself as can be. *)
Lemma ratio_self (x : list A) :
  ∃ q, ratio x x = Some q ∧ (q == 1)%Q.
Proof.
  unfold ratio.
  destruct (get_matching_blocks_self x) as (blocks & -> & Hsum). simpl.
  rewrite Hsum. eexists. split; [done|]. unfold calculate_ratio.
  destruct (length x + length x =? 0) eqn:E; [done|].
  apply Nat.eqb_neq in E. unfold Qeq. cbn [Qnum Qden].
  rewrite Zpos_of_nat by done. lia.
Qed.

End Self.
End DifflibFacts.

(** ** The similarity scorer *)
Module SimilaritySpec.
Import PyStr Similarity.

Lemma text_similarity_total (text1 text2 : string) :
  ∃ q, text_similarity text1 text2 = Some q ∧ (0 <= q)%Q ∧ (q <= 1)%Q.
Proof. apply DifflibFacts.ratio_total. Qed.

(** C6, as the code has it: for all strings [a], [b] and [x],
    [text_similarity(a, b)] returns a number in [0, 1], and
    [text_similarity(x, x)] is 1 for every [x] whose normalized form is not
    empty. Symmetry is not part of it: see [text_similarity_tide_diet]. *)
Theorem text_similarity_bounds_self (a b x : string) :
  normalize x ≠ "" →
  (∃ q, text_similarity a b = Some q ∧ (0 <= q)%Q ∧ (q <= 1)%Q)
  ∧ (∃ q, text_similarity x x = Some q ∧ (q == 1)%Q).
Proof.
  intros _. split; [apply text_similarity_total|].
  apply DifflibFacts.ratio_self.
Qed.

Lemma text_similarity_bounds_self_witness :
  (∃ q, text_similarity "tide" "diet" = Some q ∧ (0 <= q)%Q ∧ (q <= 1)%Q)
  ∧ (∃ q, text_similarity " Hello  World" " Hello  World" = Some q ∧ (q == 1)%Q).
Proof.
  apply (text_similarity_bounds_self "tide" "diet" " Hello  World").
  vm_compute. discriminate.
Defined.

(** C6, the counterexample to symmetry: [text_similarity("tide", "diet")]
    is 0.25 and [text_similarity("diet", "tide")] is 0.5. *)
Lemma text_similarity_tide_diet :
  text_similarity "tide" "diet" = Some (2 # 8)%Q
  ∧ text_similarity "diet" "tide" = Some (4 # 8)%Q
  ∧ ¬ (2 # 8 == 4 # 8)%Q.
Proof. split; [|split]; [by vm_compute..|]. by vm_compute. Qed.

End SimilaritySpec.

(** ** The text segmenter *)
Module SegmenterSpec.
Import PyStr Segmenter SegmenterAux.

(** *** Lengths and words *)

Lemma append_nil_l (y : string) : EmptyString +:+ y = y.
Proof. reflexivity. Qed.

Lemma append_cons c (x y : string) : String c x +:+ y = String c (x +:+ y).
Proof. reflexivity. Qed.

Lemma append_nil_r (x : string) : x +:+ EmptyString = x.
Proof.
  induction x as [|c x IH]; rewrite ?append_nil_l, ?append_cons; [done|].
  by rewrite IH.
Qed.

Lemma len_append (x y : string) : len (x +:+ y) = len x + len y.
Proof.
  unfold len. induction x as [|c x IH];
    rewrite ?append_nil_l, ?append_cons; simpl String.length; lia.
Qed.

Lemma append_assoc (x y z : string) : (x +:+ y) +:+ z = x +:+ y +:+ z.
Proof.
  induction x as [|c x IH]; rewrite ?append_nil_l, ?append_cons; [done|].
  by rewrite IH.
Qed.

Lemma len_lstrip_le (x : string) : len (lstrip x) ≤ len x.
Proof.
  unfold len. induction x as [|c x IH]; simpl; [lia|].
  destruct (is_space c); simpl; lia.
Qed.

Lemma len_rstrip_le (x : string) : len (rstrip x) ≤ len x.
Proof.
  unfold len. induction x as [|c x IH]; simpl; [lia|].
  destruct (rstrip x) as [|c' r]; [destruct (is_space c)|]; simpl in *; lia.
Qed.

Lemma len_strip_le (x : string) : len (strip x) ≤ len x.
Proof.
  unfold strip. etrans; [apply len_rstrip_le|apply len_lstrip_le].
Qed.

Lemma rstrip_no_space (x : string) : no_space x = true → rstrip x = x.
Proof.
  induction x as [|c x IH]; simpl; [done|].
  intros [Hc Hx]%andb_prop. rewrite (IH Hx).
  apply negb_true_iff in Hc. rewrite Hc. by destruct x.
Qed.

Lemma strip_wordlike (x : string) : wordlike x = true → strip x = x.
Proof.
  unfold wordlike, strip. intros [_ Hx]%andb_prop.
  assert (lstrip x = x) as ->; [|by apply rstrip_no_space].
  destruct x as [|c x]; simpl in *; [done|].
  apply andb_prop in Hx as [Hc _]. apply negb_true_iff in Hc. by rewrite Hc.
Qed.

Lemma no_space_append (x y : string) :
  no_space x = true → no_space y = true → no_space (x +:+ y) = true.
Proof.
  intros Hx Hy. induction x as [|c x IH];
    rewrite ?append_nil_l, ?append_cons; simpl in *; [done|].
  apply andb_prop in Hx as [-> Hx]. by apply IH.
Qed.

(** [split()] on a string without whitespace returns it whole. *)
Lemma split_from_no_space (x : string) : ∀ cur,
  no_space x = true →
  split_from cur x = if truthy (cur +:+ x) then [cur +:+ x] else [].
Proof.
  induction x as [|c x IH]; intros cur Hx; simpl.
  - by rewrite append_nil_r.
  - simpl in Hx. apply andb_prop in Hx as [Hc Hx].
    apply negb_true_iff in Hc. rewrite Hc, (IH _ Hx), append_assoc. done.
Qed.

Lemma split_wordlike (x : string) : wordlike x = true → split x = [x].
Proof.
  unfold wordlike, split. intros [Ht Hx]%andb_prop.
  rewrite split_from_no_space by done. by rewrite append_nil_l, Ht.
Qed.

(** [split()] returns words. *)
Lemma split_from_wordlike (x : string) : ∀ cur,
  no_space cur = true →
  Forall (λ word, wordlike word = true) (split_from cur x).
Proof.
  induction x as [|c x IH]; intros cur Hcur; simpl.
  - destruct (truthy cur) eqn:E; [|done].
    constructor; [|done]. unfold wordlike. by rewrite E, Hcur.
  - destruct (is_space c) eqn:Ec.
    + destruct (truthy cur) eqn:E; [|by apply IH].
      constructor; [|by apply IH]. unfold wordlike. by rewrite E, Hcur.
    + apply IH. apply no_space_append; [done|]. simpl. by rewrite Ec.
Qed.

(** *** The bound that the final pass enforces *)

Lemma bounded_strip max_length (temp_chunk : string) :
  temp_chunk = EmptyString ∨ len temp_chunk ≤ max_length
  ∨ wordlike temp_chunk = true →
  bounded max_length (strip temp_chunk).
Proof.
  intros [->|[Hlen|Hword]].
  - by left.
  - right; left. etrans; [apply len_strip_le|done].
  - right; right. rewrite (strip_wordlike _ Hword). by apply split_wordlike.
Qed.

Lemma pack_loop_bounded max_length words : ∀ temp_chunk out,
  Forall (λ word, wordlike word = true) words →
  temp_chunk = EmptyString ∨ len temp_chunk ≤ max_length
  ∨ wordlike temp_chunk = true →
  Forall (bounded max_length) out →
  let r := pack_loop max_length words temp_chunk out in
  (r.1 = EmptyString ∨ len r.1 ≤ max_length ∨ wordlike r.1 = true)
  ∧ Forall (bounded max_length) r.2.
Proof.
  induction words as [|word words IH]; intros temp out Hwords Htemp Hout;
    cbn [pack_loop]; [done|].
  apply Forall_cons in Hwords as [Hword Hwords].
  destruct (len temp + len word + 1 <=? max_length) eqn:E.
  - apply Z.leb_le in E. apply IH; [done| |done].
    right; left. destruct (truthy temp).
    + rewrite !len_append. change (len " ") with 1. lia.
    + pose proof (Nat2Z.is_nonneg (String.length temp)). unfold len in *. lia.
  - apply IH; [done|by right; right|].
    apply Forall_app. split; [done|].
    constructor; [by apply bounded_strip|done].
Qed.

Lemma pack_words_bounded max_length words out :
  Forall (λ word, wordlike word = true) words →
  Forall (bounded max_length) out →
  Forall (bounded max_length) (pack_words max_length words out).
Proof.
  intros Hwords Hout. unfold pack_words.
  pose proof (pack_loop_bounded max_length words EmptyString out Hwords
                (or_introl eq_refl) Hout) as Hloop.
  destruct (pack_loop max_length words EmptyString out) as [temp out'].
  destruct Hloop as [Htemp Hout']. cbn [fst snd] in *.
  destruct (truthy temp); [|done].
  apply Forall_app. split; [done|].
  constructor; [by apply bounded_strip|done].
Qed.

Lemma final_pass_bounded max_length chunks : ∀ final_chunks,
  Forall (bounded max_length) final_chunks →
  Forall (bounded max_length)
    (fold_left (final_step max_length) chunks final_chunks).
Proof.
  induction chunks as [|chunk chunks IH]; intros final_chunks Hfinal;
    cbn [fold_left]; [done|].
  apply IH. unfold final_step.
  destruct (len chunk <=? max_length) eqn:E.
  - apply Z.leb_le in E. apply Forall_app. split; [done|].
    constructor; [|done]. by right; left.
  - apply pack_words_bounded; [|done]. by apply split_from_wordlike.
Qed.

(** The part of C2 that holds: for every text and every [max_length],
    every chunk that is not empty is at most [max_length] long or is a
    single word. *)
Lemma split_into_chunks_bounded (text : string) (max_length : Z) :
  Forall (bounded max_length) (split_into_chunks text max_length).
Proof.
  unfold split_into_chunks.
  destruct (fold_left (sentence_step max_length) _ _) as [chunks current_chunk].
  by apply final_pass_bounded.
Qed.

(** *** The claims on [split_into_chunks] *)

(** C7, as the code has it: the second sentence is 15 characters long, which
    is not more than [max_length], so it stays whole:
    [split_into_chunks("Hello world. This is a test.", 15)] is
    [["Hello world.", "This is a test."]]. *)
Theorem hello_world_chunks :
  split_into_chunks "Hello world. This is a test." 15
  = ["Hello world."; "This is a test."].
Proof. by vm_compute. Qed.

(** C7, the counterexample: the result is not the three chunks
    [["Hello world.", "This is a", "test."]]. *)
Lemma hello_world_not_three_chunks :
  split_into_chunks "Hello world. This is a test." 15
  ≠ ["Hello world."; "This is a"; "test."].
Proof. by vm_compute. Qed.

(** C2, where the code fails it: when the first word of a span that goes to
    the word tier does not fit ([len(word) + 1 > max_length]), the empty
    [temp_chunk] is appended before the word. On ["abcdefghij"] with
    [max_length = 5] the result holds two empty chunks. *)
Theorem long_first_word_emits_empty_chunks :
  split_into_chunks "abcdefghij" 5 = [""; ""; "abcdefghij.,"]
  ∧ split_into_chunks "abcde fgh" 5 = [""; "abcde"; "fgh.,"].
Proof. split; by vm_compute. Qed.

(** C3, where the code fails it: the parts of a sentence longer than
    [max_length] are appended to [chunks] while [current_chunk] still holds
    the sentences before it. On ["Hi. aaaa, bbbb. Yo."] with
    [max_length = 10] the words come out as aaaa, bbbb, Hi, Yo. *)
Theorem long_sentence_overtakes_pending_chunk :
  split_into_chunks "Hi. aaaa, bbbb. Yo." 10 = ["aaaa,"; "bbbb.,"; "Hi. Yo."]
  ∧ chunk_words (split_into_chunks "Hi. aaaa, bbbb. Yo." 10)
    = ["aaaa"; "bbbb"; "Hi"; "Yo"]
  ∧ word_sequence "Hi. aaaa, bbbb. Yo." = ["Hi"; "aaaa"; "bbbb"; "Yo"].
Proof. split; [|split]; by vm_compute. Qed.

End SegmenterSpec.

(** ** The pipeline *)
Module PipelineSpec.
Import PyStr Segmenter Similarity Pipeline PipelineAux.

Section Spec.
Context {Audio : Type}.
Context (silent : Audio) (audio_add : Audio → Audio → Audio)
        (audio_len : Audio → Z).
Context (tts_to_file : nat → string → @Outcome Audio)
        (transcribe : nat → @File Audio → option string)
        (export : Audio → @Outcome Audio)
        (ffmpeg : gmap string (@File Audio) → string → @Outcome Audio).
Implicit Types (w : @World Audio) (s : @Loop Audio) (bk : @Book Audio).

Local Abbreviation verify_audio_quality :=
  (Pipeline.verify_audio_quality transcribe).
Local Abbreviation try_attempt :=
  (Pipeline.try_attempt audio_add tts_to_file transcribe).
Local Abbreviation attempt_body :=
  (Pipeline.attempt_body audio_add tts_to_file transcribe).
Local Abbreviation while_loop :=
  (Pipeline.while_loop audio_add tts_to_file transcribe).
Local Abbreviation process_chunk :=
  (Pipeline.process_chunk audio_add tts_to_file transcribe).
Local Abbreviation chunks_loop :=
  (Pipeline.chunks_loop audio_add tts_to_file transcribe).
Local Abbreviation assemble_chapter :=
  (Pipeline.assemble_chapter silent audio_add tts_to_file transcribe).
Local Abbreviation record_chapter := (Pipeline.record_chapter audio_add audio_len).
Local Abbreviation chapter_step :=
  (Pipeline.chapter_step silent audio_add audio_len tts_to_file transcribe).
Local Abbreviation chapters_loop :=
  (Pipeline.chapters_loop silent audio_add audio_len tts_to_file transcribe).
Local Abbreviation try_export := (Pipeline.try_export export ffmpeg).
Local Abbreviation export_step := (Pipeline.export_step export ffmpeg).
Local Abbreviation create_audiobook_from_pickle :=
  (Pipeline.create_audiobook_from_pickle silent audio_add audio_len
     tts_to_file transcribe export ffmpeg).

(** *** Filesystem effects *)

Lemma remove_settle path o w :
  fs (remove_if_exists path (mkWorld (fs (settle path o w)) (S (tts_calls w))))
  = delete path (fs w).
Proof.
  destruct o as [f|[f|]]; simpl; [| |done]; by rewrite delete_insert_eq.
Qed.

(** *** One attempt *)

Lemma verify_audio_quality_total path text w :
  ∃ v, verify_audio_quality path text w = Some v.
Proof.
  unfold Pipeline.verify_audio_quality.
  destruct (fs w !! path ≫= _) as [t|]; [|by eexists].
  destruct (SimilaritySpec.text_similarity_total text t) as (q & -> & _).
  by eexists.
Qed.

(** The [try] block returns; it invokes the synthesis once, touches the
    file at [path] only, and either counts a failed attempt or accepts. *)
Lemma try_attempt_total chunk path s w :
  ∃ s' w',
    try_attempt chunk path s w = Some (s', w')
    ∧ w' = mkWorld (fs (settle path (tts_to_file (tts_calls w) chunk) w))
                   (S (tts_calls w))
    ∧ (s' = failed s ∨ ∃ chunk_audio, s' = accepted audio_add s chunk_audio).
Proof.
  unfold Pipeline.try_attempt.
  set (w1 := mkWorld _ _).
  destruct (tts_to_file (tts_calls w) chunk) as [f|left]; [|by eauto 6].
  destruct (verify_audio_quality_total path chunk w1) as [[[[] q]|] ->];
    [|by eauto 6..].
  destruct (from_wav path w1); eauto 8.
Qed.

(** One turn of the loop returns; it invokes the synthesis once and leaves
    the filesystem as it was, but for the file of the turn, which is gone. *)
Lemma attempt_body_total chapter_title chunk i s w :
  let path := temp_wav_name chapter_title i (attempt s) in
  ∃ s' w',
    attempt_body chapter_title chunk i s w = Some (s', w')
    ∧ fs w' = delete path (fs w)
    ∧ tts_calls w' = S (tts_calls w)
    ∧ temp_wav s' = Some path
    ∧ ((attempt s' = S (attempt s) ∧ chunk_generated s' = chunk_generated s
        ∧ chapter_audio s' = chapter_audio s)
       ∨ (attempt s' = attempt s ∧ chunk_generated s' = true)).
Proof.
  intros path. unfold Pipeline.attempt_body. fold path.
  set (s1 := mkLoop _ _ _ _).
  destruct (try_attempt_total chunk path s1 w) as (s' & w' & -> & -> & Hs).
  simpl. eexists _, _. split; [done|].
  split; [apply remove_settle|]. split; [done|].
  destruct Hs as [->|[a ->]]; simpl; auto.
Qed.

(** *** The [while] loop *)

Lemma while_loop_done chapter_title chunk i fuel s w :
  chunk_generated s = true →
  while_loop chapter_title chunk i fuel s w = Some (s, w).
Proof.
  intros Hg. destruct fuel; cbn [Pipeline.while_loop];
    by rewrite Hg, andb_false_r.
Qed.

(** The loop ends within [max_attempts - attempt] turns, one synthesis
    invocation each. It only removes files. When it ends without an
    accepted chunk, every turn was used, [chapter_audio] is as before, and
    the file [temp_wav] names is gone. *)
Lemma while_loop_total chapter_title chunk i fuel : ∀ s w,
  chunk_generated s = false →
  (attempt s ≤ max_attempts)%nat →
  (max_attempts - attempt s ≤ fuel)%nat →
  attempt s = 0%nat ∨ stale chapter_title i s w →
  ∃ s' w',
    while_loop chapter_title chunk i fuel s w = Some (s', w')
    ∧ fs w' ⊆ fs w
    ∧ (tts_calls w ≤ tts_calls w' ≤ tts_calls w + (max_attempts - attempt s))%nat
    ∧ (chunk_generated s' = true
       ∨ (chunk_generated s' = false
          ∧ attempt s' = max_attempts
          ∧ chapter_audio s' = chapter_audio s
          ∧ stale chapter_title i s' w'
          ∧ tts_calls w' = (tts_calls w + (max_attempts - attempt s))%nat)).
Proof.
  assert (∀ s w, chunk_generated s = false → attempt s = max_attempts →
            attempt s = 0%nat ∨ stale chapter_title i s w →
            ∃ s' w', Some (s, w) = Some (s', w')
              ∧ fs w' ⊆ fs w
              ∧ (tts_calls w ≤ tts_calls w'
                 ≤ tts_calls w + (max_attempts - attempt s))%nat
              ∧ (chunk_generated s' = true
                 ∨ (chunk_generated s' = false
                    ∧ attempt s' = max_attempts
                    ∧ chapter_audio s' = chapter_audio s
                    ∧ stale chapter_title i s' w'
                    ∧ tts_calls w'
                      = (tts_calls w + (max_attempts - attempt s))%nat)))
    as Hexit.
  { intros s w Hg Ha [H0|Hst]; [unfold max_attempts in Ha; lia|].
    exists s, w. split; [done|]. split; [done|]. split; [lia|].
    right. repeat split; try done; try apply Hst. lia. }
  induction fuel as [|fuel IH]; intros s w Hg Ha Hf Hst;
    cbn [Pipeline.while_loop]; rewrite Hg; cbn [negb]; rewrite andb_true_r;
    destruct (attempt s <? max_attempts)%nat eqn:E;
    try (apply Nat.ltb_ge in E; apply Hexit; [done|lia|done]).
  - apply Nat.ltb_lt in E. lia.
  - apply Nat.ltb_lt in E.
    destruct (attempt_body_total chapter_title chunk i s w)
      as (s1 & w1 & -> & Hfs & Hc & Htw & Hs1).
    cbn [mbind option_bind].
    assert (fs w1 ⊆ fs w) as Hsub by (rewrite Hfs; apply delete_subseteq).
    destruct Hs1 as [(Ha1 & Hg1 & Hc1)|(Ha1 & Hg1)].
    + destruct (IH s1 w1) as (s' & w' & -> & Hsub' & Hcalls & Hres).
      * congruence.
      * lia.
      * lia.
      * right. unfold stale. rewrite Ha1.
        replace (S (attempt s) - 1)%nat with (attempt s) by lia.
        split; [lia|]. split; [done|]. rewrite Hfs. apply lookup_delete_eq.
      * exists s', w'. split; [done|]. split; [by etrans|]. split; [lia|].
        destruct Hres as [?|(? & ? & ? & ? & ?)]; [by left|right].
        split; [done|]. split; [done|]. split; [congruence|]. split; [done|lia].
    + rewrite while_loop_done by done.
      exists s1, w1. split; [done|]. split; [done|]. split; [lia|by left].
Qed.

(** The body of the chunk loop returns after at most [max_attempts]
    synthesis invocations, having only removed files. It ends with an
    accepted chunk, or it raises: the fallback reads the file of the last
    attempt, which that attempt's [finally] clause removed. *)
Lemma process_chunk_total chapter_title chunk i chapter_audio0 w :
  ∃ w' r,
    process_chunk chapter_title chunk i chapter_audio0 w = Some (w', r)
    ∧ fs w' ⊆ fs w
    ∧ (tts_calls w ≤ tts_calls w' ≤ tts_calls w + max_attempts)%nat
    ∧ ((∃ s, r = inr s ∧ chunk_generated s = true)
       ∨ (r = inl (FileNotFoundError
                     (temp_wav_name chapter_title i (max_attempts - 1)))
          ∧ tts_calls w' = (tts_calls w + max_attempts)%nat)).
Proof.
  unfold Pipeline.process_chunk.
  destruct (while_loop_total chapter_title chunk i max_attempts
              (mkLoop 0 false chapter_audio0 None) w)
    as (s & w' & -> & Hsub & Hcalls & Hres);
    [done|cbn [attempt]; lia|cbn [attempt]; lia|by left|].
  cbn [mbind option_bind]. cbn [attempt] in Hcalls.
  destruct Hres as [Hg|(Hg & Ha & _ & (_ & Htw & Hgone) & Hn)]; rewrite Hg.
  - exists w', (inr s). eauto 8.
  - rewrite Htw. unfold from_wav. rewrite Hgone, Ha.
    exists w', (inl (FileNotFoundError
                       (temp_wav_name chapter_title i (max_attempts - 1)))).
    split; [done|]. split; [done|]. split; [lia|right]. cbn [attempt] in Hn.
    split; [done|lia].
Qed.

(** *** Synthesis that is rejected every time *)

Lemma below_threshold (q : Q) :
  (q == 4 # 10)%Q → Qle_bool SIMILARITY_THRESHOLD q = false.
Proof.
  intros Hq. destruct (Qle_bool SIMILARITY_THRESHOLD q) eqn:E; [|done].
  apply Qle_bool_iff in E. rewrite Hq in E. by vm_compute in E.
Qed.

Section Rejected.
Variable chunk : string.
Hypothesis Hsynth : ∀ n, ∃ f, tts_to_file n chunk = Wrote f.
Hypothesis Hscore : ∀ n f, ∃ transcript q,
  transcribe n f = Some transcript
  ∧ text_similarity chunk transcript = Some q ∧ (q == 4 # 10)%Q.

Lemma attempt_body_rejected chapter_title i s w s' w' :
  attempt_body chapter_title chunk i s w = Some (s', w') →
  chunk_generated s' = chunk_generated s.
Proof.
  unfold Pipeline.attempt_body, Pipeline.try_attempt.
  destruct (Hsynth (tts_calls w)) as [f ->].
  unfold Pipeline.verify_audio_quality. cbn [settle write fs tts_calls].
  rewrite lookup_insert_eq. cbn [mbind option_bind].
  destruct (Hscore (S (tts_calls w)) f) as (t & q & -> & -> & Hq).
  cbn [mbind option_bind]. rewrite (below_threshold q Hq).
  by intros [= <- <-].
Qed.

Lemma while_loop_rejected chapter_title i fuel : ∀ s w s' w',
  while_loop chapter_title chunk i fuel s w = Some (s', w') →
  chunk_generated s = false → chunk_generated s' = false.
Proof.
  induction fuel as [|fuel IH]; intros s w s' w';
    cbn [Pipeline.while_loop]; destruct (_ && _); try done;
    try (by intros [= <- <-]).
  destruct (attempt_body _ _ _ s w) as [[s1 w1]|] eqn:E; [|done].
  cbn [mbind option_bind]. intros Hloop Hg.
  apply (IH s1 w1 s' w' Hloop).
  by rewrite (attempt_body_rejected _ _ _ _ _ _ E).
Qed.

End Rejected.

(** C4: for every chunk, whatever the collaborators do, the body of the
    chunk loop returns after at most [max_attempts] = 3 synthesis
    invocations; when every synthesis is transcribed with similarity 0.40,
    there are exactly 3. *)
Theorem synthesis_invocations_bounded chapter_title chunk i chapter_audio0 w :
  ∃ w' r,
    process_chunk chapter_title chunk i chapter_audio0 w = Some (w', r)
    ∧ (tts_calls w' - tts_calls w ≤ max_attempts)%nat
    ∧ max_attempts = 3%nat
    ∧ ((∀ n, ∃ f, tts_to_file n chunk = Wrote f) →
       (∀ n f, ∃ transcript q,
          transcribe n f = Some transcript
          ∧ text_similarity chunk transcript = Some q ∧ (q == 4 # 10)%Q) →
       tts_calls w' = (tts_calls w + 3)%nat).
Proof.
  destruct (process_chunk_total chapter_title chunk i chapter_audio0 w)
    as (w' & r & Heq & _ & Hcalls & Hres).
  exists w', r. split; [done|]. split; [lia|]. split; [done|].
  intros Hsynth Hscore.
  destruct Hres as [(s & -> & Hg)|[_ Hn]]; [|exact Hn].
  exfalso. revert Heq. unfold Pipeline.process_chunk.
  destruct (while_loop _ _ _ _ _ w) as [[s1 w1]|] eqn:E; [|done].
  cbn [mbind option_bind].
  rewrite (while_loop_rejected chunk Hsynth Hscore _ _ _ _ _ _ _ E eq_refl).
  destruct (temp_wav s1); [|done].
  destruct (from_wav _ w1); [|done].
  intros [= _ <-]. by cbn [chunk_generated] in Hg.
Qed.

(** *** Chapters *)

Lemma chunks_loop_total chapter_title text_chunks : ∀ i chapter_audio0 w,
  ∃ w' r,
    chunks_loop chapter_title i text_chunks chapter_audio0 w = Some (w', r)
    ∧ fs w' ⊆ fs w.
Proof.
  induction text_chunks as [|chunk rest IH]; intros i a0 w;
    cbn [Pipeline.chunks_loop]; [by eauto|].
  destruct (process_chunk_total chapter_title chunk i a0 w)
    as (w1 & r & -> & Hsub & _). cbn [mbind option_bind].
  destruct r as [e|s]; [by eauto|].
  destruct (IH (S i) (chapter_audio s) w1) as (w' & r & -> & Hsub').
  exists w', r. split; [done|by etrans].
Qed.

(** The body of the chapter loop returns. It leaves the book as it is, or
    it records the audio that [assemble_chapter] returned for the chapter. *)
Lemma chapter_step_total chapter bk w :
  ∃ bk' w' e,
    chapter_step chapter bk w = Some (bk', w', e)
    ∧ fs w' ⊆ fs w
    ∧ (bk' = bk
       ∨ ∃ chapter_audio0 w1,
           assemble_chapter chapter w = Some (w1, inr chapter_audio0)
           ∧ bk' = record_chapter bk (chapter_title chapter) chapter_audio0).
Proof.
  unfold Pipeline.chapter_step.
  destruct (chapter_content chapter); [by eauto 7|].
  destruct (negb _); [by eauto 7|].
  destruct (chunks_loop_total (chapter_title chapter)
              (split_into_chunks (chapter_text chapter) 250) 0%nat silent w)
    as (w' & r & Heq & Hsub).
  unfold Pipeline.assemble_chapter. rewrite Heq. cbn [mbind option_bind].
  destruct r as [e|a].
  - exists bk, w', (Some e). split; [done|]. split; [done|by left].
  - eexists _, w', None. split; [done|]. split; [done|].
    right. by exists a, w'.
Qed.

(** The chapter loop returns, having only removed files; the book it
    leaves is the book it started from with one chapter recorded for each
    audio that [assemble_chapter] returned. *)
Lemma chapters_loop_total chapters : ∀ bk w,
  ∃ bk' w' e,
    chapters_loop chapters bk w = Some (bk', w', e)
    ∧ fs w' ⊆ fs w
    ∧ ∃ audios : list (string * Audio),
        bk' = fold_left (λ b ta, record_chapter b ta.1 ta.2) audios bk
        ∧ Forall (λ ta, ∃ chapter w0 w1,
                    chapter ∈ chapters ∧ ta.1 = chapter_title chapter
                    ∧ assemble_chapter chapter w0 = Some (w1, inr ta.2))
            audios.
Proof.
  induction chapters as [|chapter rest IH]; intros bk w;
    cbn [Pipeline.chapters_loop].
  - exists bk, w, None. split; [done|]. split; [done|]. by exists [].
  - destruct (chapter_step_total chapter bk w)
      as (bk1 & w1 & e & -> & Hsub & Hbk). cbn [mbind option_bind].
    assert (∃ audios : list (string * Audio),
              bk1 = fold_left (λ b ta, record_chapter b ta.1 ta.2) audios bk
              ∧ Forall (λ ta, ∃ chapter0 w0 w2,
                          chapter0 ∈ chapter :: rest
                          ∧ ta.1 = chapter_title chapter0
                          ∧ assemble_chapter chapter0 w0 = Some (w2, inr ta.2))
                  audios) as (audios1 & Hfold1 & Hall1).
    { destruct Hbk as [->|(a & w2 & Ha & ->)]; [by exists []|].
      exists [(chapter_title chapter, a)]. split; [done|].
      constructor; [|done]. exists chapter, w, w2.
      split; [by left|done]. }
    destruct e as [e|]; [by eauto 8|].
    destruct (IH bk1 w1) as (bk' & w' & e & -> & Hsub' & audios & Hfold & Hall).
    exists bk', w', e. split; [done|]. split; [by etrans|].
    exists (audios1 ++ audios). split.
    + by rewrite fold_left_app, <- Hfold1.
    + apply Forall_app. split; [done|].
      eapply Forall_impl; [exact Hall|].
      intros ta (ch & w0 & w2 & Hin & ? & ?). exists ch, w0, w2.
      split; [by right|done].
Qed.

Lemma record_fold_timeline (audios : list (string * Audio)) : ∀ bk,
  ∃ new,
    chapters_info (fold_left (λ b ta, record_chapter b ta.1 ta.2) audios bk)
    = chapters_info bk ++ new
    ∧ contiguous_from (current_offset bk) new
    ∧ Forall2 (λ info ta, title info = ta.1
                          ∧ end_ms info - start_ms info = audio_len ta.2)
        new audios.
Proof.
  induction audios as [|[t a] audios IH]; intros bk; cbn [fold_left fst snd].
  - exists []. by rewrite app_nil_r.
  - destruct (IH (record_chapter bk t a)) as (new & -> & Hcont & Hall).
    cbn [Pipeline.record_chapter chapters_info current_offset fst snd] in *.
    eexists (_ :: new). rewrite <- app_assoc. split; [done|].
    split; [by split|]. constructor; [|done].
    cbn [title end_ms start_ms fst snd]. split; [done|lia].
Qed.

(** C5: whatever chapters are processed, the chapter loop returns, and the
    timeline it has built is contiguous: the first entry starts at 0 and
    each entry starts where the one before it ends. The book is the empty
    book with the assembled chapter audios recorded one after the other,
    and each entry spans [len] of the audio recorded with it. *)
Theorem timeline_contiguous (chapters : list Chapter) w :
  ∃ bk w' e,
    chapters_loop chapters (mkBook silent [] 0) w = Some (bk, w', e)
    ∧ contiguous_from 0 (chapters_info bk)
    ∧ ∃ audios : list (string * Audio),
        bk = fold_left (λ b ta, record_chapter b ta.1 ta.2) audios
               (mkBook silent [] 0)
        ∧ Forall (λ ta, ∃ chapter w0 w1,
                    chapter ∈ chapters ∧ ta.1 = chapter_title chapter
                    ∧ assemble_chapter chapter w0 = Some (w1, inr ta.2))
            audios
        ∧ Forall2 (λ info ta, title info = ta.1
                              ∧ end_ms info - start_ms info = audio_len ta.2)
            (chapters_info bk) audios.
Proof.
  destruct (chapters_loop_total chapters (mkBook silent [] 0) w)
    as (bk & w' & e & Heq & _ & audios & Hfold & Hall).
  destruct (record_fold_timeline audios (mkBook silent [] 0))
    as (new & Hinfo & Hcont & Hdur).
  rewrite <- Hfold in Hinfo. cbn [chapters_info current_offset app] in Hinfo, Hcont.
  exists bk, w', e. rewrite Hinfo. eauto 8.
Qed.

(** *** Blank chapters *)

Lemma all_space_append (x y : string) :
  all_space x = true → all_space y = true → all_space (x +:+ y) = true.
Proof.
  intros Hx Hy. induction x as [|c x IH]; simpl in *; [done|].
  apply andb_prop in Hx as [-> Hx]. by apply IH.
Qed.

Lemma all_space_join lines :
  Forall (λ line, all_space line = true) lines →
  all_space (join " " lines) = true.
Proof.
  induction 1 as [|line lines Hline Hlines IH]; [done|].
  cbn [join]. destruct lines as [|line' lines]; [done|].
  apply all_space_append; [done|]. by apply (all_space_append " ").
Qed.

Lemma strip_all_space (x : string) : all_space x = true → strip x = EmptyString.
Proof.
  intros Hx. unfold strip.
  assert (lstrip x = EmptyString) as ->; [|done].
  induction x as [|c x IH]; simpl in *; [done|].
  apply andb_prop in Hx as [-> Hx]. by apply IH.
Qed.

(** C8: a chapter whose content lines are all empty or whitespace-only is
    skipped: the body of the chapter loop leaves the book (waveform,
    timeline and offset) and the world as they are, so a run over chapters
    that include it is the run over the chapters without it. *)
Theorem blank_chapter_skipped (chapter : Chapter) :
  Forall (λ line, all_space line = true) (chapter_content chapter) →
  (∀ bk w, chapter_step chapter bk w = Some (bk, w, None))
  ∧ (∀ before after bk w,
       chapters_loop (before ++ chapter :: after) bk w
       = chapters_loop (before ++ after) bk w).
Proof.
  intros Hblank.
  assert (∀ bk w, chapter_step chapter bk w = Some (bk, w, None)) as Hskip.
  { intros bk w. unfold Pipeline.chapter_step.
    destruct (chapter_content chapter) eqn:E; [done|].
    unfold chapter_text. rewrite E.
    by rewrite (strip_all_space _ (all_space_join _ Hblank)). }
  split; [done|].
  induction before as [|chapter0 before IH]; intros after bk w;
    cbn [app Pipeline.chapters_loop].
  - by rewrite Hskip.
  - destruct (chapter_step chapter0 bk w) as [[[bk1 w1] [e|]]|];
      cbn [mbind option_bind]; [done| |done].
    apply IH.
Qed.

(** *** The export and the whole run *)

Lemma export_step_fs bk output_file w :
  let r := export_step bk output_file w in
  fs r.1 !! temp_audio = None
  ∧ fs r.1 !! "chapters.txt" = None
  ∧ ∀ p f, fs r.1 !! p = Some f → p = output_file ∨ fs w !! p = Some f.
Proof.
  unfold Pipeline.export_step.
  destruct (try_export bk output_file w) as [w1 e] eqn:E. cbn [fst].
  split; [|split].
  - cbn [remove_if_exists fs].
    destruct (decide (temp_audio = "chapters.txt")) as [Heq|Hne];
      [by rewrite Heq, lookup_delete_eq|].
    by rewrite lookup_delete_ne, lookup_delete_eq.
  - cbn [remove_if_exists fs]. by rewrite lookup_delete_eq.
  - intros p f. cbn [remove_if_exists fs].
    rewrite !lookup_delete_Some. intros (Hp1 & Hp2 & Hp).
    destruct (decide (p = output_file)) as [|Hp3]; [by left|right].
    revert E Hp. unfold Pipeline.try_export.
    destruct (export (final_audio bk)) as [f1|left1].
    + destruct (ffmpeg _ output_file) as [f2|[f2|]]; intros [= <- _];
        unfold create_chapter_file; cbn [settle write fs];
        by rewrite ?lookup_insert_ne by done.
    + destruct left1 as [f1|]; intros [= <- _]; cbn [settle write fs];
        by rewrite ?lookup_insert_ne by done.
Qed.

(** C9: a run returns, with or without an exception, and every file that
    is there after it was there before it with the same content, unless it
    is the output file. Along the way every turn of the attempt loop ends
    with its [temp_wav] gone, and the export step ends with
    [temp_audiobook.m4a] and [chapters.txt] gone, whatever happened in the
    [try] blocks. *)
Theorem no_temporary_artifact_remains (chapters : list Chapter)
    (output_file : string) w :
  (∃ w' e,
     create_audiobook_from_pickle chapters output_file w = Some (w', e)
     ∧ ∀ p f, fs w' !! p = Some f → p = output_file ∨ fs w !! p = Some f)
  ∧ (∀ chapter_title chunk i s w0,
       ∃ s' w1,
         attempt_body chapter_title chunk i s w0 = Some (s', w1)
         ∧ fs w1 !! temp_wav_name chapter_title i (attempt s) = None)
  ∧ (∀ bk w0,
       fs (export_step bk output_file w0).1 !! temp_audio = None
       ∧ fs (export_step bk output_file w0).1 !! "chapters.txt" = None).
Proof.
  split; [|split].
  - unfold Pipeline.create_audiobook_from_pickle.
    destruct (chapters_loop_total chapters (mkBook silent [] 0) w)
      as (bk & w1 & e & -> & Hsub & _). cbn [mbind option_bind].
    destruct e as [e|].
    + exists w1, (Some e). split; [done|]. intros p f Hp. right.
      by eapply lookup_weaken.
    + destruct (export_step_fs bk output_file w1) as (_ & _ & Hnew).
      destruct (export_step bk output_file w1) as [w2 e] eqn:E.
      exists w2, e. split; [done|]. intros p f Hp.
      destruct (Hnew p f Hp) as [?|Hold]; [by left|right].
      by eapply lookup_weaken.
  - intros chapter_title chunk i s w0.
    destruct (attempt_body_total chapter_title chunk i s w0)
      as (s' & w1 & Heq & Hfs & _).
    exists s', w1. split; [done|]. rewrite Hfs. apply lookup_delete_eq.
  - intros bk w0. destruct (export_step_fs bk output_file w0) as (? & ? & _).
    done.
Qed.


End Spec.

(** *** The run of [Scenario] *)

Import Scenario.

(** C1, where the code fails it: with a transcript that scores 0.40 on
    every attempt, the three attempts are rejected and the fallback
    [AudioSegment.from_wav(temp_wav)] raises [FileNotFoundError], the
    [finally] clause of the last attempt having removed the file; the
    exception leaves [create_audiobook_from_pickle], and no audio was
    appended. *)
Theorem exhausted_chunk_raises :
  text_similarity "ab." "ax" = Some (2 # 5)%Q
  ∧ split_into_chunks "ab" 250 = ["ab."]
  ∧ Pipeline.process_chunk Z.add tts_one_second garbage_transcript
      "T" "ab." 0 0 empty_world
    = Some (mkWorld ∅ 3, inl (FileNotFoundError "temp_T_0_attempt_2.wav"))
  ∧ Pipeline.create_audiobook_from_pickle 0 Z.add id tts_one_second
      garbage_transcript export_ok ffmpeg_ok
      [mkChapter "T" ["ab"]] "out.m4b" empty_world
    = Some (mkWorld ∅ 3, Some (FileNotFoundError "temp_T_0_attempt_2.wav")).
Proof. repeat split; by vm_compute. Qed.

(** A run in which every chunk is accepted at once: two chapters of one
    second each around a blank one give the timeline 0-1000, 1000-2000, and
    the output file is the only file left. *)
Lemma accepted_run :
  Pipeline.chapters_loop 0 Z.add id tts_one_second faithful_transcript
    [mkChapter "T" ["ab"]; mkChapter "E" [""; "  "]; mkChapter "U" ["ab"]]
    (mkBook 0 [] 0) empty_world
  = Some (mkBook 2000 [mkChapterInfo 0 1000 "T"; mkChapterInfo 1000 2000 "U"]
            2000,
          mkWorld ∅ 2, None)
  ∧ Pipeline.create_audiobook_from_pickle 0 Z.add id tts_one_second
      faithful_transcript export_ok ffmpeg_ok
      [mkChapter "T" ["ab"]; mkChapter "E" [""; "  "]; mkChapter "U" ["ab"]]
      "out.m4b" empty_world
    = Some (mkWorld {["out.m4b" := Data "m4b"]} 2, None).
Proof. split; by vm_compute. Qed.

Lemma synthesis_invocations_bounded_witness :
  ∃ w' r,
    Pipeline.process_chunk Z.add tts_one_second garbage_transcript
      "T" "ab." 0 0 empty_world = Some (w', r)
    ∧ tts_calls w' = 3%nat.
Proof.
  destruct (synthesis_invocations_bounded Z.add tts_one_second
              garbage_transcript "T" "ab." 0 0 empty_world)
    as (w' & r & Heq & _ & _ & Hexact).
  exists w', r. split; [exact Heq|]. apply Hexact.
  - intros n. eexists. reflexivity.
  - intros n f. exists "ax", (2 # 5)%Q. by vm_compute.
Defined.

Lemma blank_chapter_skipped_witness :
  (∀ bk w,
     Pipeline.chapter_step 0 Z.add id tts_one_second garbage_transcript
       (mkChapter "E" [""; "  "]) bk w = Some (bk, w, None))
  ∧ (∀ before after bk w,
       Pipeline.chapters_loop 0 Z.add id tts_one_second garbage_transcript
         (before ++ mkChapter "E" [""; "  "] :: after) bk w
       = Pipeline.chapters_loop 0 Z.add id tts_one_second garbage_transcript
           (before ++ after) bk w).
Proof.
  apply (blank_chapter_skipped 0 Z.add id tts_one_second garbage_transcript
           (mkChapter "E" [""; "  "])).
  repeat constructor.
Defined.

End PipelineSpec.

(** ** The text segmenter: words, order and bounds *)
Module SegmenterMore.
Import PyStr Segmenter SegmenterAux SegmenterWords SegmenterSpec PipelineAux.

(** *** Words of a string *)

Lemma is_break_unpad c :
  is_space (if Ascii.eqb c "." || Ascii.eqb c "," then " "%char else c)
  = is_break c.
Proof.
  unfold is_break. destruct (Ascii.eqb c ".") eqn:E1; simpl.
  - by rewrite orb_true_r.
  - destruct (Ascii.eqb c ","); simpl; [by rewrite orb_true_r|].
    by rewrite !orb_false_r.
Qed.

Lemma words_from_nil cur :
  words_from cur EmptyString = if truthy cur then [cur] else [].
Proof. reflexivity. Qed.

Lemma words_from_cons cur c (x : string) :
  words_from cur (String c x)
  = if is_break c then (if truthy cur then [cur] else []) ++ words_from EmptyString x
    else words_from (cur +:+ String c EmptyString) x.
Proof.
  unfold words_from. cbn [unpad split_from]. rewrite is_break_unpad.
  unfold is_break.
  destruct (Ascii.eqb c ".") eqn:E1; [by rewrite orb_true_r; destruct (truthy cur)|].
  destruct (Ascii.eqb c ",") eqn:E2; [by rewrite orb_true_r; destruct (truthy cur)|].
  cbn [orb]. rewrite !orb_false_r. by destruct (is_space c), (truthy cur).
Qed.

(** A break between two strings separates their words. *)
Lemma words_from_break (x y : string) c : ∀ cur,
  is_break c = true →
  words_from cur (x +:+ String c y)
  = words_from cur x ++ words_from EmptyString y.
Proof.
  induction x as [|d x IH]; intros cur Hc;
    rewrite ?append_nil_l, ?append_cons.
  - by rewrite words_from_cons, Hc, words_from_nil.
  - rewrite !words_from_cons. destruct (is_break d).
    + by rewrite IH, app_assoc.
    + by apply IH.
Qed.

Lemma words_from_lstrip (x : string) :
  words_from EmptyString (lstrip x) = words_from EmptyString x.
Proof.
  induction x as [|c x IH]; cbn [lstrip]; [done|].
  destruct (is_space c) eqn:E; [|done].
  rewrite words_from_cons. unfold is_break. by rewrite E.
Qed.

Lemma words_from_rstrip (x : string) : ∀ cur,
  words_from cur (rstrip x) = words_from cur x.
Proof.
  induction x as [|c x IH]; intros cur; cbn [rstrip]; [done|].
  destruct (rstrip x) as [|d r] eqn:Er.
  - rewrite (words_from_cons cur c x), <- (IH EmptyString),
      <- (IH (cur +:+ String c EmptyString)).
    destruct (is_space c) eqn:Ec.
    + unfold is_break. rewrite Ec. cbn [orb].
      rewrite !words_from_nil. cbn [truthy]. by rewrite app_nil_r.
    + by rewrite words_from_cons.
  - rewrite (words_from_cons cur c (String d r)), (words_from_cons cur c x).
    by rewrite !IH.
Qed.

Lemma word_sequence_strip (x : string) :
  word_sequence (strip x) = word_sequence x.
Proof.
  unfold strip. change word_sequence with (words_from EmptyString).
  by rewrite words_from_rstrip, words_from_lstrip.
Qed.

Lemma word_sequence_break (x y : string) c :
  is_break c = true →
  word_sequence (x +:+ String c y) = word_sequence x ++ word_sequence y.
Proof. apply (words_from_break x y c EmptyString). Qed.

Lemma word_sequence_stop (x : string) c :
  is_break c = true →
  word_sequence (x +:+ String c EmptyString) = word_sequence x.
Proof.
  intros Hc. rewrite word_sequence_break by done. apply app_nil_r.
Qed.

Lemma chunk_words_app (l k : list string) :
  chunk_words (l ++ k) = chunk_words l ++ chunk_words k.
Proof. unfold chunk_words. by rewrite List.map_app, concat_app. Qed.

Lemma chunk_words_one (x : string) : chunk_words [x] = word_sequence x.
Proof. unfold chunk_words. simpl. apply app_nil_r. Qed.

(** The words of a string are the words of its pieces between the
    occurrences of a break. *)
Lemma words_from_split_on c (x : string) : ∀ cur,
  is_break c = true →
  words_from cur x
  = words_from cur (hd EmptyString (split_on c x))
    ++ chunk_words (tl (split_on c x)).
Proof.
  induction x as [|d x IH]; intros cur Hc; cbn [split_on].
  - cbn [hd tl]. by rewrite app_nil_r.
  - destruct (Ascii.eqb d c) eqn:Ed.
    + apply Ascii.eqb_eq in Ed as ->. cbn [hd tl].
      rewrite words_from_cons, Hc, words_from_nil.
      rewrite (IH EmptyString Hc). f_equal.
      destruct (split_on c x) as [|w ws]; [done|].
      cbn [hd tl]. unfold chunk_words. by simpl.
    + specialize (IH (if is_break d then EmptyString
                      else cur +:+ String d EmptyString) Hc).
      destruct (split_on c x) as [|w ws];
        cbn [hd tl] in *; rewrite !words_from_cons;
        destruct (is_break d); rewrite IH; by rewrite ?app_assoc.
Qed.

Lemma chunk_words_split_on c (x : string) :
  is_break c = true →
  chunk_words (split_on c x) = word_sequence x.
Proof.
  intros Hc. change (word_sequence x) with (words_from EmptyString x).
  rewrite (words_from_split_on c x EmptyString Hc).
  destruct (split_on c x) as [|w ws] eqn:E.
  - by destruct x; simpl in E; [|destruct (Ascii.eqb _ _), (split_on c x)].
  - done.
Qed.

Lemma word_sequence_blank (x : string) :
  strip x = EmptyString → word_sequence x = [].
Proof. intros Hx. by rewrite <- word_sequence_strip, Hx. Qed.

(** The list comprehensions of [split_into_chunks] keep the words. *)
Lemma chunk_words_pieces c (x : string) :
  is_break c = true →
  chunk_words (pieces c x) = word_sequence x.
Proof.
  intros Hc. rewrite <- (chunk_words_split_on c x Hc). unfold pieces.
  induction (split_on c x) as [|p ps IH]; [done|].
  cbn [List.filter]. destruct (truthy (strip p)) eqn:E.
  - cbn [List.map]. change (?a :: ?l) with ([a] ++ l).
    rewrite !chunk_words_app, IH, !chunk_words_one.
    by rewrite word_sequence_stop, word_sequence_strip.
  - change (p :: ps) with ([p] ++ ps).
    rewrite chunk_words_app, IH, chunk_words_one.
    rewrite (word_sequence_blank p); [done|]. by destruct (strip p).
Qed.

(** [str.split()] keeps the words. *)
Lemma chunk_words_split_from (x : string) : ∀ cur,
  chunk_words (split_from cur x) = word_sequence (cur +:+ x).
Proof.
  induction x as [|c x IH]; intros cur; cbn [split_from].
  - rewrite append_nil_r. destruct cur; [done|]. apply chunk_words_one.
  - destruct (is_space c) eqn:Ec.
    + rewrite word_sequence_break by (unfold is_break; by rewrite Ec).
      rewrite <- (append_nil_l x), <- IH, append_nil_l.
      destruct cur as [|d cur]; cbn [truthy]; [done|].
      change (?a :: ?l) with ([a] ++ l).
      by rewrite chunk_words_app, chunk_words_one.
    + by rewrite IH, append_assoc.
Qed.

(** *** Words through the loops of [split_into_chunks] *)

Lemma pack_loop_words max_length words : ∀ temp_chunk out,
  let r := pack_loop max_length words temp_chunk out in
  chunk_words r.2 ++ word_sequence r.1
  = chunk_words out ++ word_sequence temp_chunk ++ chunk_words words.
Proof.
  induction words as [|word words IH]; intros temp out; cbn [pack_loop].
  - cbn [fst snd]. by rewrite !app_nil_r.
  - change (word :: words) with ([word] ++ words).
    rewrite chunk_words_app, chunk_words_one.
    destruct (len temp + len word + 1 <=? max_length).
    + rewrite IH. f_equal. rewrite app_assoc. f_equal.
      destruct temp as [|d temp]; cbn [truthy]; [done|].
      by apply (word_sequence_break (String d temp) word " ").
    + rewrite IH, chunk_words_app, chunk_words_one, word_sequence_strip.
      by rewrite <- !app_assoc.
Qed.

Lemma pack_words_words max_length words out :
  chunk_words (pack_words max_length words out)
  = chunk_words out ++ chunk_words words.
Proof.
  unfold pack_words.
  pose proof (pack_loop_words max_length words EmptyString out) as Hloop.
  destruct (pack_loop max_length words EmptyString out) as [temp out'].
  cbn [fst snd] in Hloop. change (word_sequence EmptyString) with (@nil string) in Hloop.
  rewrite app_nil_l in Hloop. rewrite <- Hloop.
  destruct temp as [|d temp]; cbn [truthy].
  - by rewrite app_nil_r.
  - by rewrite chunk_words_app, chunk_words_one, word_sequence_strip.
Qed.

Lemma part_step_words max_length chunks (part : string) :
  chunk_words (part_step max_length chunks part)
  = chunk_words chunks ++ word_sequence part.
Proof.
  unfold part_step. destruct (len part >? max_length).
  - rewrite pack_words_words. f_equal. unfold split.
    by rewrite chunk_words_split_from, append_nil_l.
  - by rewrite chunk_words_app, chunk_words_one.
Qed.

Lemma parts_words max_length parts : ∀ chunks,
  chunk_words (fold_left (part_step max_length) parts chunks)
  = chunk_words chunks ++ chunk_words parts.
Proof.
  induction parts as [|part parts IH]; intros chunks; cbn [fold_left].
  - by rewrite app_nil_r.
  - rewrite IH, part_step_words. change (part :: parts) with ([part] ++ parts).
    by rewrite chunk_words_app, chunk_words_one, app_assoc.
Qed.

Lemma final_pass_words max_length chunks : ∀ final_chunks,
  chunk_words (fold_left (final_step max_length) chunks final_chunks)
  = chunk_words final_chunks ++ chunk_words chunks.
Proof.
  induction chunks as [|chunk chunks IH]; intros final_chunks; cbn [fold_left].
  - by rewrite app_nil_r.
  - rewrite IH. change (chunk :: chunks) with ([chunk] ++ chunks).
    rewrite (chunk_words_app [chunk]), chunk_words_one, app_assoc. f_equal.
    unfold final_step. destruct (len chunk <=? max_length).
    + by rewrite chunk_words_app, chunk_words_one.
    + rewrite pack_words_words. f_equal. unfold split.
      by rewrite chunk_words_split_from, append_nil_l.
Qed.

Lemma sentence_step_words max_length chunks current_chunk (sentence : string) :
  let r := sentence_step max_length (chunks, current_chunk) sentence in
  (chunk_words r.1 ++ word_sequence r.2
   ≡ₚ chunk_words chunks ++ word_sequence current_chunk ++ word_sequence sentence)
  ∧ (len sentence ≤ max_length →
     chunk_words r.1 ++ word_sequence r.2
     = chunk_words chunks ++ word_sequence current_chunk ++ word_sequence sentence).
Proof.
  unfold sentence_step.
  destruct (truthy (strip sentence)) eqn:Es; cbn [negb].
  2: { rewrite (word_sequence_blank sentence) by (by destruct (strip sentence)).
       cbn [fst snd]. by rewrite app_nil_r. }
  destruct (len sentence >? max_length) eqn:Elong.
  - cbn [fst snd]. rewrite parts_words, chunk_words_pieces by done. split.
    + rewrite <- app_assoc. apply Permutation_app_head, Permutation_app_comm.
    + apply Z.gtb_lt in Elong. lia.
  - destruct (len current_chunk + len sentence + 1 <=? max_length);
      cbn [fst snd]; destruct current_chunk as [|d cur]; cbn [truthy].
    + done.
    + change (String d cur +:+ " " +:+ sentence)
        with (String d cur +:+ String " " sentence).
      by rewrite word_sequence_break.
    + done.
    + rewrite chunk_words_app, chunk_words_one, word_sequence_strip.
      rewrite <- app_assoc. done.
Qed.

Lemma sentences_words max_length sentences : ∀ chunks current_chunk,
  let r := fold_left (sentence_step max_length) sentences (chunks, current_chunk) in
  (chunk_words r.1 ++ word_sequence r.2
   ≡ₚ chunk_words chunks ++ word_sequence current_chunk ++ chunk_words sentences)
  ∧ (Forall (λ sentence, len sentence ≤ max_length) sentences →
     chunk_words r.1 ++ word_sequence r.2
     = chunk_words chunks ++ word_sequence current_chunk ++ chunk_words sentences).
Proof.
  induction sentences as [|sentence sentences IH]; intros chunks cur;
    cbn [fold_left].
  - cbn [fst snd]. by rewrite !app_nil_r.
  - pose proof (sentence_step_words max_length chunks cur sentence) as [Hp He].
    destruct (sentence_step max_length (chunks, cur) sentence) as [chunks1 cur1].
    cbn [fst snd] in Hp, He. destruct (IH chunks1 cur1) as [IHp IHe].
    change (sentence :: sentences) with ([sentence] ++ sentences).
    rewrite chunk_words_app, chunk_words_one. split.
    + rewrite IHp, !app_assoc. apply Permutation_app_tail.
      by rewrite <- app_assoc.
    + intros [Hs Hrest]%Forall_cons. rewrite (IHe Hrest), !app_assoc.
      f_equal. rewrite <- app_assoc. by apply He.
Qed.

Lemma split_into_chunks_words (text : string) max_length :
  (chunk_words (split_into_chunks text max_length) ≡ₚ word_sequence text)
  ∧ (Forall (λ sentence, len sentence ≤ max_length) (pieces "." text) →
     chunk_words (split_into_chunks text max_length) = word_sequence text).
Proof.
  unfold split_into_chunks.
  pose proof (sentences_words max_length (pieces "." text) [] EmptyString)
    as [Hp He].
  destruct (fold_left (sentence_step max_length) _ _) as [chunks cur].
  cbn [fst snd] in Hp, He. rewrite final_pass_words. cbn [app].
  rewrite (chunk_words_pieces "." text eq_refl) in Hp, He.
  assert (chunk_words (if truthy cur then chunks ++ [strip cur] else chunks)
          = chunk_words chunks ++ word_sequence cur) as ->.
  { destruct cur as [|d cur]; cbn [truthy]; [by rewrite app_nil_r|].
    by rewrite chunk_words_app, chunk_words_one, word_sequence_strip. }
  done.
Qed.

(** X1: the segmenter neither drops, nor repeats, nor alters a word: the
    words of the chunks (the runs of characters other than whitespace, "."
    and ",") are the words of the text, in some order. *)
Theorem split_into_chunks_keeps_words (text : string) (max_length : Z) :
  chunk_words (split_into_chunks text max_length) ≡ₚ word_sequence text.
Proof. apply split_into_chunks_words. Qed.

(** X2: when no sentence is longer than [max_length], the words of the
    chunks are the words of the text in their order. *)
Theorem split_into_chunks_keeps_order (text : string) (max_length : Z) :
  Forall (λ sentence, len sentence ≤ max_length) (pieces "." text) →
  chunk_words (split_into_chunks text max_length) = word_sequence text.
Proof. apply split_into_chunks_words. Qed.

Lemma split_into_chunks_keeps_order_witness :
  chunk_words (split_into_chunks "Hello world. This is a test." 15)
  = word_sequence "Hello world. This is a test.".
Proof.
  apply (split_into_chunks_keeps_order "Hello world. This is a test." 15).
  vm_compute. repeat constructor; discriminate.
Defined.

(** *** Texts without an over-long sentence *)

Lemma all_space_lstrip (x : string) : all_space (lstrip x) = all_space x.
Proof.
  induction x as [|c x IH]; cbn [lstrip]; [done|].
  destruct (is_space c) eqn:E; [|done]. cbn [all_space]. by rewrite E.
Qed.

Lemma rstrip_empty (x : string) : rstrip x = EmptyString → all_space x = true.
Proof.
  induction x as [|c x IH]; cbn [rstrip all_space]; [done|].
  destruct (rstrip x); [|done]. destruct (is_space c); [|done].
  intros _. by apply IH.
Qed.

Lemma strip_inked (x : string) : all_space x = false → strip x ≠ EmptyString.
Proof.
  intros Hx Hs. apply rstrip_empty in Hs. rewrite all_space_lstrip in Hs.
  congruence.
Qed.

Lemma all_space_app (x y : string) :
  all_space (x +:+ y) = all_space x && all_space y.
Proof.
  induction x as [|c x IH]; rewrite ?append_nil_l, ?append_cons; [done|].
  cbn [all_space]. by rewrite IH, andb_assoc.
Qed.

Lemma pieces_inked c (x : string) :
  is_space c = false →
  Forall (λ piece, all_space piece = false) (pieces c x).
Proof.
  intros Hc. unfold pieces. apply Forall_forall. intros piece Hin.
  apply list_elem_of_In, in_map_iff in Hin as (p & <- & _).
  rewrite all_space_app. cbn [all_space]. by rewrite Hc, andb_false_r.
Qed.

Lemma sentence_step_within max_length chunks current_chunk (sentence : string) :
  len sentence ≤ max_length → all_space sentence = false →
  Forall (within max_length) chunks →
  current_chunk = EmptyString
  ∨ (all_space current_chunk = false ∧ len current_chunk ≤ max_length) →
  let r := sentence_step max_length (chunks, current_chunk) sentence in
  Forall (within max_length) r.1
  ∧ (r.2 = EmptyString ∨ (all_space r.2 = false ∧ len r.2 ≤ max_length)).
Proof.
  intros Hlen Hink Hchunks Hcur. unfold sentence_step.
  destruct (negb _); [done|].
  destruct (len sentence >? max_length) eqn:Elong;
    [apply Z.gtb_lt in Elong; lia|].
  destruct (len current_chunk + len sentence + 1 <=? max_length) eqn:E;
    cbn [fst snd].
  - apply Z.leb_le in E. split; [done|right].
    destruct current_chunk as [|d cur]; cbn [truthy]; [done|].
    rewrite !all_space_app, !len_append, Hink, !andb_false_r.
    change (len " ") with 1. split; [done|lia].
  - split; [|by right].
    destruct Hcur as [->|[Hcink Hclen]]; [done|].
    destruct current_chunk as [|d cur]; cbn [truthy]; [done|].
    apply Forall_app. split; [done|]. constructor; [|done].
    split; [by apply strip_inked|].
    etrans; [apply len_strip_le|done].
Qed.

Lemma final_pass_short max_length chunks : ∀ final_chunks,
  Forall (λ chunk, len chunk ≤ max_length) chunks →
  fold_left (final_step max_length) chunks final_chunks = final_chunks ++ chunks.
Proof.
  induction chunks as [|chunk chunks IH]; intros final_chunks Hall;
    cbn [fold_left]; [by rewrite app_nil_r|].
  apply Forall_cons in Hall as [Hlen Hall]. rewrite IH by done.
  unfold final_step. apply Z.leb_le in Hlen. rewrite Hlen.
  by rewrite <- app_assoc.
Qed.

(** X3: when no sentence is longer than [max_length], every chunk is a
    non-empty string of at most [max_length] characters. *)
Theorem short_sentences_chunks_within (text : string) (max_length : Z) :
  Forall (λ sentence, len sentence ≤ max_length) (pieces "." text) →
  Forall (λ chunk, chunk ≠ EmptyString ∧ len chunk ≤ max_length)
    (split_into_chunks text max_length).
Proof.
  intros Hshort. unfold split_into_chunks.
  assert (∀ sentences chunks cur,
            Forall (λ sentence, len sentence ≤ max_length) sentences →
            Forall (λ sentence, all_space sentence = false) sentences →
            Forall (within max_length) chunks →
            cur = EmptyString
            ∨ (all_space cur = false ∧ len cur ≤ max_length) →
            let r := fold_left (sentence_step max_length) sentences (chunks, cur) in
            Forall (within max_length) r.1
            ∧ (r.2 = EmptyString
               ∨ (all_space r.2 = false ∧ len r.2 ≤ max_length))) as Hloop.
  { induction sentences as [|sentence sentences IH];
      intros chunks cur Hlens Hinks Hchunks Hcur; cbn [fold_left]; [done|].
    apply Forall_cons in Hlens as [Hlen Hlens].
    apply Forall_cons in Hinks as [Hink Hinks].
    pose proof (sentence_step_within max_length chunks cur sentence
                  Hlen Hink Hchunks Hcur) as Hstep.
    destruct (sentence_step max_length (chunks, cur) sentence) as [chunks1 cur1].
    cbn [fst snd] in Hstep. destruct Hstep as [Hchunks1 Hcur1].
    by apply (IH chunks1 cur1). }
  specialize (Hloop (pieces "." text) [] EmptyString Hshort
                (pieces_inked "." text eq_refl) (Forall_nil_2 _) (or_introl eq_refl)).
  destruct (fold_left (sentence_step max_length) _ _) as [chunks cur].
  cbn [fst snd] in Hloop. destruct Hloop as [Hchunks Hcur].
  assert (Forall (within max_length)
            (if truthy cur then chunks ++ [strip cur] else chunks)) as Hall.
  { destruct Hcur as [->|[Hink Hlen]]; [done|].
    destruct cur as [|d cur]; cbn [truthy]; [done|].
    apply Forall_app. split; [done|]. constructor; [|done].
    split; [by apply strip_inked|]. etrans; [apply len_strip_le|done]. }
  rewrite final_pass_short; [done|].
  eapply Forall_impl; [exact Hall|]. by intros chunk [_ ?].
Qed.

Lemma short_sentences_chunks_within_witness :
  Forall (λ chunk, chunk ≠ EmptyString ∧ len chunk ≤ 15)
    (split_into_chunks "Hello world. This is a test." 15).
Proof.
  apply (short_sentences_chunks_within "Hello world. This is a test." 15).
  vm_compute. repeat constructor; discriminate.
Defined.

(** X4: whatever the text and [max_length], every chunk is empty, or at
    most [max_length] long, or a single word that [str.split()] returns
    whole. *)
Theorem chunks_bounded_or_single_word (text : string) (max_length : Z) :
  Forall (λ chunk, chunk = EmptyString ∨ len chunk ≤ max_length
                   ∨ split chunk = [chunk])
    (split_into_chunks text max_length).
Proof. apply split_into_chunks_bounded. Qed.

(** *** Texts without a word *)

Lemma split_on_blanks (x : string) :
  blanks_and_stops x = true →
  Forall (λ piece, all_space piece = true) (split_on "." x).
Proof.
  induction x as [|c x IH]; cbn [blanks_and_stops split_on]; [by repeat constructor|].
  intros [Hc Hx]%andb_prop. specialize (IH Hx).
  destruct (Ascii.eqb c ".") eqn:E; [by constructor|].
  rewrite orb_false_r in Hc.
  destruct (split_on "." x) as [|w ws]; [by repeat constructor; cbn; rewrite Hc|].
  apply Forall_cons in IH as [Hw Hws]. constructor; [|done].
  cbn [all_space]. by rewrite Hc.
Qed.

(** X5: a text made of whitespace and full stops only (the empty text
    included) yields no chunk. *)
Theorem blank_text_no_chunk (text : string) (max_length : Z) :
  blanks_and_stops text = true → split_into_chunks text max_length = [].
Proof.
  intros Hblank. unfold split_into_chunks.
  assert (pieces "." text = []) as ->; [|done].
  unfold pieces. pose proof (split_on_blanks text Hblank) as Hall.
  induction Hall as [|p ps Hp Hps IH]; [done|].
  cbn [List.filter]. by rewrite (PipelineSpec.strip_all_space p Hp).
Qed.

Lemma blank_text_no_chunk_witness :
  split_into_chunks " . .. " 200 = [].
Proof. apply (blank_text_no_chunk " . .. " 200). reflexivity. Defined.

End SegmenterMore.

(** ** The similarity scorer: normalization and lengths *)
Module SimilarityMore.
Import PyStr Similarity SegmenterAux SegmenterSpec.

(** *** Normalization *)

Lemma lower_char_idem c : lower_char (lower_char c) = lower_char c.
Proof. by destruct c as [[] [] [] [] [] [] [] []]. Qed.

Lemma is_space_lower_char c : is_space (lower_char c) = is_space c.
Proof. by destruct c as [[] [] [] [] [] [] [] []]. Qed.

Lemma lower_append (x y : string) : lower (x +:+ y) = lower x +:+ lower y.
Proof.
  induction x as [|c x IH]; rewrite ?append_nil_l, ?append_cons; [done|].
  cbn [lower]. by rewrite IH, append_cons.
Qed.

Lemma lower_idem (x : string) : lower (lower x) = lower x.
Proof.
  induction x as [|c x IH]; cbn [lower]; [done|].
  by rewrite lower_char_idem, IH.
Qed.

Lemma truthy_lower (x : string) : truthy (lower x) = truthy x.
Proof. by destruct x. Qed.

(** [lower()] and [split()] commute. *)
Lemma split_from_lower (x : string) : ∀ cur,
  split_from (lower cur) (lower x) = List.map lower (split_from cur x).
Proof.
  induction x as [|c x IH]; intros cur; cbn [lower split_from].
  - rewrite truthy_lower. by destruct (truthy cur).
  - rewrite is_space_lower_char, truthy_lower.
    destruct (is_space c).
    + change EmptyString with (lower EmptyString) at 1 2.
      rewrite IH. by destruct (truthy cur).
    + change (String (lower_char c) EmptyString)
        with (lower (String c EmptyString)).
      by rewrite <- lower_append, IH.
Qed.

Lemma lower_join (words : list string) :
  lower (join " " words) = join " " (List.map lower words).
Proof.
  induction words as [|word words IH]; [done|].
  destruct words as [|word' words]; [done|].
  cbn [join List.map] in *. by rewrite !lower_append, IH.
Qed.

Lemma split_from_word (word x : string) : ∀ cur,
  no_space word = true →
  split_from cur (word +:+ x) = split_from (cur +:+ word) x.
Proof.
  induction word as [|c word IH]; intros cur Hw;
    rewrite ?append_nil_l, ?append_cons.
  - by rewrite append_nil_r.
  - cbn [no_space] in Hw. apply andb_prop in Hw as [Hc Hw].
    apply negb_true_iff in Hc. cbn [split_from]. rewrite Hc.
    rewrite IH by done. by rewrite append_assoc.
Qed.

(** [split()] undoes [" ".join] on words. *)
Lemma split_join (words : list string) :
  Forall (λ word, wordlike word = true) words →
  split (join " " words) = words.
Proof.
  unfold split. induction 1 as [|word words Hword Hwords IH]; [done|].
  apply andb_prop in Hword as [Ht Hn].
  destruct words as [|word' words].
  - cbn [join]. apply split_wordlike. unfold wordlike. by rewrite Ht, Hn.
  - cbn [join] in *. rewrite split_from_word by done.
    rewrite append_nil_l, append_cons, append_nil_l.
    cbn [split_from]. change (is_space " ") with true. cbv iota.
    by rewrite Ht, IH.
Qed.

Lemma normalize_idem (text : string) : normalize (normalize text) = normalize text.
Proof.
  unfold normalize. rewrite lower_join.
  change (split (lower text)) with (split_from (lower EmptyString) (lower text)).
  rewrite split_from_lower, List.map_map.
  rewrite (List.map_ext _ lower lower_idem).
  rewrite <- (split_from_lower text EmptyString).
  change (split_from (lower EmptyString) (lower text)) with (split (lower text)).
  rewrite split_join; [done|]. by apply split_from_wordlike.
Qed.

(** X6: normalizing is idempotent, so scoring the normalized texts is
    scoring the texts. *)
Theorem text_similarity_normalized (text1 text2 : string) :
  normalize (normalize text1) = normalize text1
  ∧ text_similarity (normalize text1) (normalize text2)
    = text_similarity text1 text2.
Proof.
  split; [apply normalize_idem|].
  unfold text_similarity. by rewrite !normalize_idem.
Qed.

(** X7: two texts that differ in case and in whitespace only, that is with
    the same normalized form, score 1.0. *)
Theorem same_normal_form_scores_one (text1 text2 : string) :
  normalize text1 = normalize text2 →
  ∃ q, text_similarity text1 text2 = Some q ∧ (q == 1)%Q.
Proof.
  intros Heq. unfold text_similarity. rewrite Heq.
  apply DifflibFacts.ratio_self.
Qed.

Lemma same_normal_form_scores_one_witness :
  ∃ q, text_similarity "Hello  World" " hello world " = Some q ∧ (q == 1)%Q.
Proof.
  apply (same_normal_form_scores_one "Hello  World" " hello world ").
  reflexivity.
Defined.

(** *** Lengths *)

Lemma length_list_ascii (x : string) :
  length (list_ascii_of_string x) = String.length x.
Proof. induction x as [|c x IH]; simpl; [done|]. by rewrite IH. Qed.

(** The score is [2 * M / T] for a number [M] of matched characters that
    neither normalized text can fall short of. *)
Lemma text_similarity_matches (text1 text2 : string) :
  ∃ matches,
    text_similarity text1 text2
    = Some (Difflib.calculate_ratio matches
              (String.length (normalize text1) + String.length (normalize text2)))
    ∧ (matches ≤ String.length (normalize text1))%nat
    ∧ (matches ≤ String.length (normalize text2))%nat.
Proof.
  unfold text_similarity, Difflib.ratio.
  destruct (DifflibFacts.get_matching_blocks_total
              (list_ascii_of_string (normalize text1))
              (list_ascii_of_string (normalize text2)))
    as (blocks & -> & H1 & H2).
  rewrite !length_list_ascii in *. cbn [mbind option_bind]. eauto.
Qed.

(** X8: a blank text against a text that is not blank scores 0, in either
    order; two blank texts score 1.0. *)
Theorem blank_text_scores (text1 text2 : string) :
  normalize text1 = EmptyString →
  (normalize text2 = EmptyString →
   text_similarity text1 text2 = Some 1%Q)
  ∧ (normalize text2 ≠ EmptyString →
     ∃ q, text_similarity text1 text2 = Some q ∧ (q == 0)%Q
          ∧ text_similarity text2 text1 = Some q).
Proof.
  intros H1. split.
  - intros H2. destruct (text_similarity_matches text1 text2) as (m & -> & _).
    by rewrite H1, H2.
  - intros H2.
    destruct (text_similarity_matches text1 text2) as (m & -> & Hm & _).
    destruct (text_similarity_matches text2 text1) as (m' & -> & _ & Hm').
    rewrite H1 in *. cbn [String.length] in *.
    replace m with 0%nat by lia. replace m' with 0%nat by lia.
    destruct (normalize text2) as [|c x] eqn:E; [done|].
    cbn [String.length]. rewrite Nat.add_0_r. cbn [Nat.add].
    eexists. split; [done|]. split; [|done].
    unfold Difflib.calculate_ratio. by cbn.
Qed.

Lemma blank_text_scores_witness :
  (normalize "x" = EmptyString → text_similarity "  " "x" = Some 1%Q)
  ∧ (normalize "x" ≠ EmptyString →
     ∃ q, text_similarity "  " "x" = Some q ∧ (q == 0)%Q
          ∧ text_similarity "x" "  " = Some q).
Proof. apply (blank_text_scores "  " "x"). reflexivity. Defined.

End SimilarityMore.

(** ** The pipeline: acceptance, cost and files *)
Module PipelineMore.
Import PyStr Segmenter Similarity Pipeline PipelineAux PipelineFiles.

Section More.
Context {Audio : Type}.
Context (silent : Audio) (audio_add : Audio → Audio → Audio)
        (audio_len : Audio → Z).
Context (tts_to_file : nat → string → @Outcome Audio)
        (transcribe : nat → @File Audio → option string)
        (export : Audio → @Outcome Audio)
        (ffmpeg : gmap string (@File Audio) → string → @Outcome Audio).
Implicit Types (w : @World Audio) (s : @Loop Audio) (bk : @Book Audio).

Local Abbreviation verify_audio_quality :=
  (Pipeline.verify_audio_quality transcribe).
Local Abbreviation attempt_body :=
  (Pipeline.attempt_body audio_add tts_to_file transcribe).
Local Abbreviation while_loop :=
  (Pipeline.while_loop audio_add tts_to_file transcribe).
Local Abbreviation process_chunk :=
  (Pipeline.process_chunk audio_add tts_to_file transcribe).
Local Abbreviation chunks_loop :=
  (Pipeline.chunks_loop audio_add tts_to_file transcribe).
Local Abbreviation assemble_chapter :=
  (Pipeline.assemble_chapter silent audio_add tts_to_file transcribe).
Local Abbreviation record_chapter := (Pipeline.record_chapter audio_add audio_len).
Local Abbreviation chapter_step :=
  (Pipeline.chapter_step silent audio_add audio_len tts_to_file transcribe).
Local Abbreviation chapters_loop :=
  (Pipeline.chapters_loop silent audio_add audio_len tts_to_file transcribe).
Local Abbreviation export_step := (Pipeline.export_step export ffmpeg).
Local Abbreviation create_audiobook_from_pickle :=
  (Pipeline.create_audiobook_from_pickle silent audio_add audio_len
     tts_to_file transcribe export ffmpeg).

(** *** Acceptance *)

(** X9: a transcript whose normalized length is less than 17/23 of the
    normalized length of the text, or more than 23/17 of it, is never of
    good quality: the score stays below the threshold 0.85. *)
Theorem lopsided_transcript_rejected (audio_file original_text : string) w f
    (transcript : string) :
  fs w !! audio_file = Some f →
  transcribe (tts_calls w) f = Some transcript →
  23 * len (normalize transcript) < 17 * len (normalize original_text)
  ∨ 23 * len (normalize original_text) < 17 * len (normalize transcript) →
  ∃ q, verify_audio_quality audio_file original_text w = Some (Some (false, q)).
Proof.
  intros Hf Ht Hlen. unfold Pipeline.verify_audio_quality.
  rewrite Hf. cbn [mbind option_bind]. rewrite Ht.
  destruct (SimilarityMore.text_similarity_matches original_text transcript)
    as (m & -> & Ha & Hb).
  cbn [mbind option_bind]. eexists. do 3 f_equal.
  unfold len in Hlen.
  set (la := String.length (normalize original_text)) in *.
  set (lb := String.length (normalize transcript)) in *.
  destruct (Qle_bool _ _) eqn:E; [|done]. exfalso.
  apply Qle_bool_iff in E. revert E.
  unfold Difflib.calculate_ratio, SIMILARITY_THRESHOLD.
  destruct (la + lb =? 0)%nat eqn:E0; [apply Nat.eqb_eq in E0; lia|].
  apply Nat.eqb_neq in E0. unfold Qle. cbn [Qnum Qden].
  rewrite DifflibFacts.Zpos_of_nat by done. lia.
Qed.

Lemma attempt_body_good (chapter_title chunk : string) (i : nat) s w
    (audio : Audio) (transcript : string) (q : Q) :
  tts_to_file (tts_calls w) chunk = Wrote (Wav audio) →
  transcribe (S (tts_calls w)) (Wav audio) = Some transcript →
  text_similarity chunk transcript = Some q →
  (SIMILARITY_THRESHOLD <= q)%Q →
  attempt_body chapter_title chunk i s w
  = Some (mkLoop (attempt s) true (audio_add (chapter_audio s) audio)
            (Some (temp_wav_name chapter_title i (attempt s))),
          mkWorld (delete (temp_wav_name chapter_title i (attempt s)) (fs w))
            (S (tts_calls w))).
Proof.
  intros Htts Hasr Hsim Hq.
  unfold Pipeline.attempt_body, Pipeline.try_attempt. rewrite Htts.
  cbn [settle write fs tts_calls].
  unfold Pipeline.verify_audio_quality. cbn [fs tts_calls].
  rewrite lookup_insert_eq. cbn [mbind option_bind]. rewrite Hasr, Hsim.
  cbn [mbind option_bind].
  apply Qle_bool_iff in Hq. rewrite Hq.
  unfold from_wav. cbn [fs]. rewrite lookup_insert_eq.
  cbn [mbind option_bind]. unfold remove_if_exists, accepted.
  cbn [fs tts_calls attempt chunk_generated chapter_audio temp_wav].
  by rewrite delete_insert_eq.
Qed.

(** X10: when the first synthesis of a chunk writes a WAV file whose
    transcript scores at least 0.85, the chunk is accepted at once: one
    synthesis invocation, the audio appended to [chapter_audio], no second
    attempt, and the temporary file removed. *)
Theorem good_first_attempt_accepted (chapter_title chunk : string) (i : nat)
    (chapter_audio0 : Audio) w (audio : Audio) (transcript : string) (q : Q) :
  tts_to_file (tts_calls w) chunk = Wrote (Wav audio) →
  transcribe (S (tts_calls w)) (Wav audio) = Some transcript →
  text_similarity chunk transcript = Some q →
  (SIMILARITY_THRESHOLD <= q)%Q →
  process_chunk chapter_title chunk i chapter_audio0 w
  = Some (mkWorld (delete (temp_wav_name chapter_title i 0) (fs w))
            (S (tts_calls w)),
          inr (mkLoop 0%nat true (audio_add chapter_audio0 audio)
                 (Some (temp_wav_name chapter_title i 0)))).
Proof.
  intros Htts Hasr Hsim Hq.
  unfold Pipeline.process_chunk. unfold max_attempts at 1.
  cbn [Pipeline.while_loop attempt chunk_generated].
  change ((0 <? max_attempts)%nat && negb false) with true. cbv iota.
  rewrite (attempt_body_good _ _ _ _ _ audio transcript q Htts Hasr Hsim Hq).
  cbn [mbind option_bind attempt chapter_audio chunk_generated negb].
  rewrite andb_false_r. by cbn [mbind option_bind chunk_generated].
Qed.

(** *** Cost *)

Lemma chunks_loop_cost chapter_title text_chunks : ∀ i chapter_audio0 w w' r,
  chunks_loop chapter_title i text_chunks chapter_audio0 w = Some (w', r) →
  (tts_calls w ≤ tts_calls w'
   ≤ tts_calls w + max_attempts * length text_chunks)%nat.
Proof.
  induction text_chunks as [|chunk rest IH]; intros i a0 w w' r;
    cbn [Pipeline.chunks_loop].
  - intros [= <- _]. lia.
  - destruct (PipelineSpec.process_chunk_total audio_add tts_to_file transcribe
                chapter_title chunk i a0 w) as (w1 & r1 & -> & _ & Hcalls & _).
    cbn [mbind option_bind]. destruct r1 as [e|s].
    + intros [= <- _]. cbn [length]. lia.
    + intros Hrest. apply IH in Hrest. cbn [length]. lia.
Qed.

(** X11: the audio of a chapter costs at most [max_attempts] = 3 synthesis
    invocations for each of its chunks. *)
Theorem chapter_cost_bounded (chapter : Chapter) w :
  ∃ w' r,
    assemble_chapter chapter w = Some (w', r)
    ∧ (tts_calls w ≤ tts_calls w' ≤ tts_calls w + 3 * chunk_count chapter)%nat.
Proof.
  unfold Pipeline.assemble_chapter, chunk_count.
  destruct (PipelineSpec.chunks_loop_total audio_add tts_to_file transcribe
              (chapter_title chapter)
              (split_into_chunks (chapter_text chapter) 250) 0%nat silent w)
    as (w' & r & Heq & _).
  exists w', r. split; [done|]. by apply chunks_loop_cost in Heq.
Qed.

(** *** Files *)

Lemma while_loop_frame chapter_title chunk i fuel : ∀ s w s' w' p,
  while_loop chapter_title chunk i fuel s w = Some (s', w') →
  (∀ k, p ≠ temp_wav_name chapter_title i k) →
  fs w' !! p = fs w !! p.
Proof.
  induction fuel as [|fuel IH]; intros s w s' w' p;
    cbn [Pipeline.while_loop]; destruct (_ && _); try done;
    try (by intros [= _ <-]).
  destruct (PipelineSpec.attempt_body_total audio_add tts_to_file transcribe
              chapter_title chunk i s w) as (s1 & w1 & -> & Hfs & _).
  cbn [mbind option_bind]. intros Hloop Hp.
  rewrite (IH _ _ _ _ _ Hloop Hp), Hfs. by apply lookup_delete_ne.
Qed.

Lemma chunks_loop_frame chapter_title text_chunks : ∀ i chapter_audio0 w w' r p,
  chunks_loop chapter_title i text_chunks chapter_audio0 w = Some (w', r) →
  (∀ j k, p ≠ temp_wav_name chapter_title j k) →
  fs w' !! p = fs w !! p.
Proof.
  induction text_chunks as [|chunk rest IH]; intros i a0 w w' r p;
    cbn [Pipeline.chunks_loop]; [by intros [= <- _]|].
  unfold Pipeline.process_chunk.
  destruct (while_loop _ _ _ _ _ w) as [[s1 w1]|] eqn:E; [|done].
  cbn [mbind option_bind]. intros Hrest Hp.
  pose proof (while_loop_frame _ _ _ _ _ _ _ _ p E (Hp i)) as <-.
  revert Hrest.
  destruct (chunk_generated s1); [|destruct (temp_wav s1); [destruct (from_wav _ _)|]];
    cbn [mbind option_bind]; try (by intros [= <- _]);
    intros Hrest; by apply (IH _ _ _ _ _ _ Hrest).
Qed.

Lemma chapters_loop_frame chapters : ∀ bk w bk' w' e p,
  chapters_loop chapters bk w = Some (bk', w', e) →
  (∀ chapter_title j k, p ≠ temp_wav_name chapter_title j k) →
  fs w' !! p = fs w !! p.
Proof.
  induction chapters as [|chapter rest IH]; intros bk w bk' w' e p;
    cbn [Pipeline.chapters_loop]; [by intros [= _ <- _]|].
  unfold Pipeline.chapter_step, Pipeline.assemble_chapter.
  destruct (chapter_content chapter); [by apply IH|].
  destruct (negb _); [by apply IH|].
  destruct (chunks_loop _ _ _ _ w) as [[w1 r1]|] eqn:E; [|done].
  cbn [mbind option_bind]. intros Hrest Hp.
  pose proof (chunks_loop_frame _ _ _ _ _ _ _ p E (Hp _)) as <-.
  destruct r1 as [exn|a]; cbn [mbind option_bind] in Hrest.
  - by injection Hrest as _ <- _.
  - by apply (IH _ _ _ _ _ _ Hrest).
Qed.

Lemma export_step_frame bk output_file w p :
  p ≠ output_file → p ≠ temp_audio → p ≠ "chapters.txt" →
  fs (export_step bk output_file w).1 !! p = fs w !! p.
Proof.
  intros Hout Htemp Hch. unfold Pipeline.export_step, Pipeline.try_export.
  destruct (export (final_audio bk)) as [f1|[f1|]];
    [destruct (ffmpeg _ output_file) as [f2|[f2|]]|..];
    unfold create_chapter_file;
    cbn [fst remove_if_exists settle write fs];
    by rewrite !lookup_delete_ne, ?lookup_insert_ne by done.
Qed.

Lemma run_total (chapters : list Chapter) (output_file : string) w :
  ∃ w' e, create_audiobook_from_pickle chapters output_file w = Some (w', e).
Proof.
  unfold Pipeline.create_audiobook_from_pickle.
  destruct (PipelineSpec.chapters_loop_total silent audio_add audio_len
              tts_to_file transcribe chapters (mkBook silent [] 0) w)
    as (bk & w1 & e & -> & _). cbn [mbind option_bind].
  destruct e as [exn|]; [by eauto|].
  destruct (Pipeline.export_step export ffmpeg bk output_file w1) as [w2 e2].
  by eauto.
Qed.

Lemma run_frame (chapters : list Chapter) (output_file : string) w w' e p :
  create_audiobook_from_pickle chapters output_file w = Some (w', e) →
  p ≠ output_file → ¬ is_temp_path p →
  fs w' !! p = fs w !! p.
Proof.
  unfold Pipeline.create_audiobook_from_pickle. intros Hrun Hout Htemp.
  destruct (chapters_loop chapters _ w) as [[[bk w1] e1]|] eqn:E; [|done].
  cbn [mbind option_bind] in Hrun.
  assert (fs w1 !! p = fs w !! p) as <-.
  { apply (chapters_loop_frame _ _ _ _ _ _ _ E). intros t j k ->.
    apply Htemp. right; right. by exists t, j, k. }
  destruct e1 as [exn|]; [by injection Hrun as <- _|].
  destruct (Pipeline.export_step export ffmpeg bk output_file w1) as [w2 e2] eqn:E2.
  injection Hrun as <- _.
  change w2 with (w2, e2).1. rewrite <- E2.
  apply export_step_frame; [done| |].
  - intros ->. apply Htemp. by right; left.
  - intros ->. apply Htemp. by left.
Qed.

(** X12: a run returns, and it leaves every file as it was but its
    temporary files ([chapters.txt], [temp_audiobook.m4a] and the
    [temp_..._attempt_k.wav] files) and the output file: no other path is
    created, changed or removed. *)
Theorem run_touches_only_its_files (chapters : list Chapter)
    (output_file : string) w :
  ∃ w' e,
    create_audiobook_from_pickle chapters output_file w = Some (w', e)
    ∧ ∀ p, p ≠ output_file → ¬ is_temp_path p → fs w' !! p = fs w !! p.
Proof.
  destruct (run_total chapters output_file w) as (w' & e & Heq).
  exists w', e. split; [done|]. intros p. by apply (run_frame _ _ _ _ _ _ Heq).
Qed.

(** X13: a run that ends without an exception has written the output
    file, provided its name is not one of the two temporary names of the
    export, which the [finally] clause removes. *)
Theorem successful_run_has_output (chapters : list Chapter)
    (output_file : string) w w' :
  output_file ≠ temp_audio → output_file ≠ "chapters.txt" →
  create_audiobook_from_pickle chapters output_file w = Some (w', None) →
  ∃ f, fs w' !! output_file = Some f.
Proof.
  intros Htemp Hch. unfold Pipeline.create_audiobook_from_pickle.
  destruct (chapters_loop chapters _ w) as [[[bk w1] [exn|]]|]; [done| |done].
  cbn [mbind option_bind]. unfold Pipeline.export_step, Pipeline.try_export.
  destruct (export (final_audio bk)) as [f1|left1]; [|done].
  destruct (ffmpeg _ output_file) as [f2|left2]; [|done].
  intros [= <-]. exists f2. cbn [remove_if_exists settle write fs].
  by rewrite !lookup_delete_ne, lookup_insert_eq.
Qed.

(** *** Chapter markers *)



End More.

(** *** Runs of [Scenario] *)

Import Scenario.

Lemma lopsided_transcript_rejected_witness :
  ∃ q, Pipeline.verify_audio_quality garbage_transcript "t.wav" "abcdefgh"
         (mkWorld {["t.wav" := Wav 1000]} 1) = Some (Some (false, q)).
Proof.
  apply (lopsided_transcript_rejected garbage_transcript "t.wav" "abcdefgh"
           (mkWorld {["t.wav" := Wav 1000]} 1) (Wav 1000) "ax").
  - reflexivity.
  - reflexivity.
  - left. by vm_compute.
Defined.

Lemma good_first_attempt_accepted_witness :
  Pipeline.process_chunk Z.add tts_one_second faithful_transcript
    "T" "ab." 0 0 empty_world
  = Some (mkWorld (delete (temp_wav_name "T" 0 0) ∅) 1,
          inr (mkLoop 0%nat true (0 + 1000) (Some (temp_wav_name "T" 0 0)))).
Proof.
  apply (good_first_attempt_accepted Z.add tts_one_second faithful_transcript
           "T" "ab." 0 0 empty_world 1000 "ab." (6 # 6)).
  - reflexivity.
  - reflexivity.
  - by vm_compute.
  - by vm_compute.
Defined.

Lemma successful_run_has_output_witness :
  ∃ f, fs (mkWorld {["out.m4b" := @Data Z "m4b"]} 2) !! "out.m4b" = Some f.
Proof.
  apply (successful_run_has_output 0 Z.add id tts_one_second
           faithful_transcript export_ok ffmpeg_ok
           [mkChapter "T" ["ab"]; mkChapter "E" [""; "  "]; mkChapter "U" ["ab"]]
           "out.m4b" empty_world).
  - by vm_compute.
  - by vm_compute.
  - by vm_compute.
Defined.


End PipelineMore.

(** ** [readPDF.py] *)
Module ReadPDFSpec.
Import PyStr PyStrMore ReadPDF ReadPDFAux PipelineAux SegmenterSpec.

(** *** Headers and page numbers *)

Lemma is_digit_upper c : is_digit c = true → upper_codes c = [N_of_ascii c].
Proof. destruct c as [[] [] [] [] [] [] [] []]; by vm_compute. Qed.

Lemma all_digits_equals_upper (x : string) :
  all_digits x = true → equals_upper x = true.
Proof.
  intros Hx. apply bool_decide_eq_true. unfold code_points, upper.
  induction x as [|c x IH]; [done|].
  cbn [all_digits] in Hx. apply andb_prop in Hx as [Hc Hx].
  cbn [list_ascii_of_string List.map concat].
  by rewrite (is_digit_upper c Hc), <- IH.
Qed.

Lemma rstrip_idem (x : string) : rstrip (rstrip x) = rstrip x.
Proof.
  induction x as [|c x IH]; cbn [rstrip]; [done|].
  destruct (rstrip x) as [|d r] eqn:E.
  - destruct (is_space c) eqn:Ec; cbn [rstrip]; [done|]. by rewrite Ec.
  - cbn [rstrip] in *. by rewrite IH.
Qed.

Lemma lstrip_head (x : string) :
  lstrip x = EmptyString ∨ ∃ c y, lstrip x = String c y ∧ is_space c = false.
Proof.
  induction x as [|c x IH]; cbn [lstrip]; [by left|].
  destruct (is_space c) eqn:E; [done|]. right. by exists c, x.
Qed.

Lemma strip_idem (x : string) : strip (strip x) = strip x.
Proof.
  unfold strip. destruct (lstrip_head x) as [->|(c & y & -> & Hc)]; [done|].
  assert (lstrip (rstrip (String c y)) = rstrip (String c y)) as ->;
    [|apply rstrip_idem].
  cbn [rstrip]. destruct (rstrip y); rewrite ?Hc; cbn [lstrip]; by rewrite Hc.
Qed.

Lemma header_not_empty (line : string) :
  is_chapter_header line = true → truthy (strip line) = true.
Proof. unfold is_chapter_header. by destruct (strip line). Qed.

Lemma header_strip (line : string) :
  is_chapter_header (strip line) = is_chapter_header line.
Proof. unfold is_chapter_header. by rewrite strip_idem. Qed.

(** X15: a page number of five digits or more is also a chapter header.
    [parse_pdf], which tests for page numbers first, drops such a line;
    [parse_text_file], which does not test for them, opens a chapter with
    that title. *)
Theorem long_page_number_is_header (line : string) (st : OrderedDict * string) :
  is_page_number line = true → 4 < len (strip line) →
  is_chapter_header line = true
  ∧ pdf_line_step st line = Some st
  ∧ text_line_step st line = Some (od_set (strip line) [] st.1, strip line).
Proof.
  unfold is_page_number, isdigit. intros [Ht Hd]%andb_prop Hlen.
  assert (is_chapter_header line = true) as Hh.
  { unfold is_chapter_header. rewrite (all_digits_equals_upper _ Hd).
    apply Z.ltb_lt in Hlen. rewrite Hlen. apply orb_true_r. }
  split; [done|]. destruct st as [d cur]. split.
  - unfold pdf_line_step, is_page_number, isdigit. by rewrite Ht, Hd.
  - unfold text_line_step. by rewrite Ht, header_strip, Hh.
Qed.

Lemma long_page_number_is_header_witness :
  is_chapter_header " 12345 " = true
  ∧ pdf_line_step initial " 12345 " = Some initial
  ∧ text_line_step initial " 12345 "
    = Some (od_set (strip " 12345 ") [] initial.1, strip " 12345 ").
Proof.
  apply (long_page_number_is_header " 12345 " initial).
  - reflexivity.
  - by vm_compute.
Defined.

(** *** The dictionary *)

Lemma od_set_keys (key : string) (value : list string) (d : OrderedDict) :
  List.map fst (od_set key value d)
  = List.map fst d ++ (if decide (key ∈ List.map fst d) then [] else [key]).
Proof.
  induction d as [|[k v] d IH]; cbn [od_set List.map fst app].
  - by rewrite decide_False by apply not_elem_of_nil.
  - destruct (String.eqb_spec k key) as [->|Hne]; cbn [List.map fst].
    + rewrite decide_True by apply list_elem_of_here. by rewrite app_nil_r.
    + rewrite IH. f_equal. destruct (decide (key ∈ List.map fst d)) as [Hin|Hin].
      * by rewrite decide_True by by apply list_elem_of_further.
      * rewrite decide_False; [done|]. intros [?|?]%elem_of_cons; congruence.
Qed.

Lemma od_set_fresh (key : string) (value : list string) (d : OrderedDict) :
  key ∉ List.map fst d → od_set key value d = d ++ [(key, value)].
Proof.
  induction d as [|[k v] d IH]; cbn [od_set List.map fst app]; [done|].
  intros Hin. destruct (String.eqb_spec k key) as [->|Hne].
  - exfalso. apply Hin, list_elem_of_here.
  - rewrite IH; [done|]. intros ?. by apply Hin, list_elem_of_further.
Qed.

Lemma od_set_items (P : string * list string → Prop) key value d :
  Forall P d → (∀ v, P (key, v) → P (key, value)) → P (key, value) →
  Forall P (od_set key value d).
Proof.
  intros Hd Hsame Hnew.
  induction Hd as [|[k v] d Hitem Hd IH]; cbn [od_set].
  - by constructor.
  - destruct (String.eqb_spec k key) as [->|Hne]; constructor; eauto.
Qed.

Lemma od_append_present (P : string * list string → Prop) key line d :
  key ∈ List.map fst d →
  ∃ d', od_append key line d = Some d'
    ∧ List.map fst d' = List.map fst d
    ∧ (Forall P d → (∀ v, P (key, v) → P (key, v ++ [line])) → Forall P d').
Proof.
  induction d as [|[k v] d IH]; cbn [od_append List.map fst].
  - by intros ?%elem_of_nil.
  - intros Hin. destruct (String.eqb_spec k key) as [->|Hne].
    + eexists. split; [done|]. split; [done|].
      intros [Hitem Hd]%Forall_cons_1 Hstep. constructor; eauto.
    + destruct IH as (d' & -> & Hkeys & Hall).
      { apply elem_of_cons in Hin as [?|?]; [congruence|done]. }
      cbn [mbind option_bind]. eexists. split; [done|]. split.
      * cbn [List.map fst]. by rewrite Hkeys.
      * intros [Hitem Hd]%Forall_cons_1 Hstep. constructor; eauto.
Qed.

Lemma od_append_last (d0 : OrderedDict) (cur line : string) v :
  cur ∉ List.map fst d0 →
  od_append cur line (d0 ++ [(cur, v)]) = Some (d0 ++ [(cur, v ++ [line])]).
Proof.
  induction d0 as [|[k u] d0 IH]; cbn [od_append List.map fst app]; intros Hin.
  - by rewrite String.eqb_refl.
  - destruct (String.eqb_spec k cur) as [->|Hne].
    + exfalso. apply Hin, list_elem_of_here.
    + rewrite IH; [done|]. intros ?. by apply Hin, list_elem_of_further.
Qed.

Lemma od_get_set (key : string) (value : list string) (d : OrderedDict) :
  od_get key (od_set key value d) = Some value.
Proof.
  induction d as [|[k v] d IH]; cbn [od_set od_get].
  - by rewrite String.eqb_refl.
  - destruct (String.eqb k key) eqn:E; cbn [od_get]; by rewrite E.
Qed.

Lemma od_get_append (key line : string) (d : OrderedDict) v :
  od_get key d = Some v →
  ∃ d', od_append key line d = Some d' ∧ od_get key d' = Some (v ++ [line]).
Proof.
  induction d as [|[k u] d IH]; cbn [od_append od_get]; [done|].
  destruct (String.eqb k key) eqn:E.
  - intros [= ->]. eexists. split; [done|]. cbn [od_get]. by rewrite E.
  - intros (d' & -> & Hget)%IH. cbn [mbind option_bind]. eexists.
    split; [done|]. cbn [od_get]. by rewrite E.
Qed.

(** *** The loops *)

Lemma for_each_app {S X : Type} (body : S → X → option S) (xs ys : list X) st :
  for_each body (xs ++ ys) st = st' ← for_each body xs st; for_each body ys st'.
Proof.
  revert st. induction xs as [|x xs IH]; intros st; cbn [for_each app]; [done|].
  destruct (body st x) as [st'|]; cbn [mbind option_bind]; [apply IH|done].
Qed.

Lemma for_each_inv {S X : Type} (body : S → X → option S)
    (I : S → Prop) (P : X → Prop) (xs : list X) st :
  (∀ st x, I st → P x → ∃ st', body st x = Some st' ∧ I st') →
  Forall P xs → I st → ∃ st', for_each body xs st = Some st' ∧ I st'.
Proof.
  intros Hbody Hxs. revert st.
  induction Hxs as [|x xs Hx Hxs IH]; intros st Hst; cbn [for_each]; [by eauto|].
  destruct (Hbody st x Hst Hx) as (st' & -> & Hst').
  cbn [mbind option_bind]. by apply IH.
Qed.

Lemma initial_inv (title_ok line_ok : string → Prop) :
  title_ok "Introduction" → parse_inv title_ok line_ok initial.
Proof.
  intros Hintro. unfold parse_inv, initial. cbn.
  split; [apply list_elem_of_here|]. split; [apply NoDup_singleton|].
  split; [done|]. by repeat constructor.
Qed.

(** Opening a chapter keeps the state well formed. *)
Lemma open_chapter_inv (title_ok line_ok : string → Prop) d cur key :
  parse_inv title_ok line_ok (d, cur) → title_ok key →
  parse_inv title_ok line_ok (od_set key [] d, key).
Proof.
  intros (Hcur & Hnd & Hhd & Hall) Hkey. unfold parse_inv in *.
  cbn [fst snd] in *. rewrite od_set_keys.
  destruct (decide (key ∈ List.map fst d)) as [Hin|Hin]; rewrite ?app_nil_r.
  - split; [done|]. split; [done|]. split; [done|].
    apply od_set_items; [done| |]; cbn [fst snd]; intros; by split.
  - split; [apply elem_of_app; right; apply list_elem_of_here|].
    split.
    { apply NoDup_app. split; [done|]. split; [|apply NoDup_singleton].
      intros k Hk ->%list_elem_of_singleton. by apply Hin. }
    split.
    { destruct (List.map fst d); [done|]. done. }
    apply od_set_items; [done| |]; cbn [fst snd]; intros; by split.
Qed.

(** Appending a line to the current chapter does not raise and keeps the
    state well formed. *)
Lemma append_line_inv (title_ok line_ok : string → Prop) d cur line :
  parse_inv title_ok line_ok (d, cur) → line_ok line →
  ∃ d', od_append cur line d = Some d' ∧ parse_inv title_ok line_ok (d', cur).
Proof.
  intros (Hcur & Hnd & Hhd & Hall) Hline. cbn [fst snd] in *.
  destruct (od_append_present
              (λ item, title_ok item.1 ∧ Forall line_ok item.2) cur line d Hcur)
    as (d' & Heq & Hkeys & Hitems).
  exists d'. split; [done|]. unfold parse_inv. cbn [fst snd]. rewrite Hkeys.
  split; [done|]. split; [done|]. split; [done|].
  apply Hitems; [done|]. cbn [fst snd]. intros v [Ht Hv]. split; [done|].
  apply Forall_app. split; [done|]. by repeat constructor.
Qed.

(** *** [parse_text_file] *)

Lemma kept_lines_cons (line : string) (lines : list string) :
  kept_lines (line :: lines)
  = if truthy (strip line) then strip line :: kept_lines lines
    else kept_lines lines.
Proof. done. Qed.

Lemma headers_cons (line : string) (lines : list string) :
  headers (line :: lines)
  = if truthy (strip line) && is_chapter_header (strip line)
    then strip line :: headers lines else headers lines.
Proof.
  unfold headers. rewrite kept_lines_cons.
  destruct (truthy (strip line)); cbn [andb List.filter]; [|done].
  by destruct (is_chapter_header (strip line)).
Qed.

Lemma contents_cons (line : string) (lines : list string) :
  contents (line :: lines)
  = if truthy (strip line) && negb (is_chapter_header (strip line))
    then strip line :: contents lines else contents lines.
Proof.
  unfold contents. rewrite kept_lines_cons.
  destruct (truthy (strip line)); cbn [andb List.filter]; [|done].
  by destruct (is_chapter_header (strip line)).
Qed.

Lemma headers_elem (lines : list string) (line : string) :
  line ∈ lines → truthy (strip line) = true →
  is_chapter_header (strip line) = true → strip line ∈ headers lines.
Proof.
  intros Hin Ht Hh. unfold headers, kept_lines.
  apply list_elem_of_In, filter_In. split; [|done].
  apply filter_In. split; [|done]. apply in_map. by apply list_elem_of_In.
Qed.

Lemma contents_elem (lines : list string) (line : string) :
  line ∈ lines → truthy (strip line) = true →
  is_chapter_header (strip line) = false → strip line ∈ contents lines.
Proof.
  intros Hin Ht Hh. unfold contents, kept_lines.
  apply list_elem_of_In, filter_In. split; [|by rewrite Hh].
  apply filter_In. split; [|done]. apply in_map. by apply list_elem_of_In.
Qed.

Lemma contents_inked (lines : list string) (line : string) :
  line ∈ contents lines → all_space line = false.
Proof.
  unfold contents, kept_lines.
  intros [[Hin Ht]%filter_In _]%list_elem_of_In%filter_In.
  apply in_map_iff in Hin as (raw & <- & _).
  destruct (all_space (strip raw)) eqn:E; [|done].
  apply PipelineSpec.strip_all_space in E. rewrite strip_idem in E.
  by rewrite E in Ht.
Qed.

Lemma text_line_step_eq (d : OrderedDict) (cur line : string) :
  text_line_step (d, cur) line
  = if negb (truthy (strip line)) then Some (d, cur)
    else if is_chapter_header (strip line)
         then Some (od_set (strip line) [] d, strip line)
         else d' ← od_append cur (strip line) d; Some (d', cur).
Proof. done. Qed.

Lemma text_line_step_inv (lines : list string) st line :
  parse_inv (text_title lines) (text_line lines) st → line ∈ lines →
  ∃ st', text_line_step st line = Some st'
    ∧ parse_inv (text_title lines) (text_line lines) st'.
Proof.
  destruct st as [d cur]. intros Hinv Hin. unfold text_line_step.
  destruct (truthy (strip line)) eqn:Ht; cbn [negb]; [|by eauto].
  destruct (is_chapter_header (strip line)) eqn:Hh.
  - eexists. split; [done|]. apply (open_chapter_inv _ _ d cur); [done|].
    right. by apply headers_elem.
  - destruct (append_line_inv _ _ d cur (strip line) Hinv) as (d' & -> & Hinv').
    { by apply contents_elem. }
    cbn [mbind option_bind]. by eauto.
Qed.

Lemma parse_text_file_inv (lines : list string) :
  ∃ st, for_each text_line_step lines initial = Some st
    ∧ parse_inv (text_title lines) (text_line lines) st.
Proof.
  apply (for_each_inv text_line_step _ (λ line, line ∈ lines)).
  - intros st line. apply text_line_step_inv.
  - by apply Forall_forall.
  - apply initial_inv. by left.
Qed.

(** X16: [parse_text_file] never raises [KeyError]. The first key of its
    dictionary is ["Introduction"], the keys are distinct, every other key
    is a header line of the file, stripped, and every stored line is a
    line of the file, stripped, that is neither empty nor a header. *)
Theorem parse_text_file_shape (lines : list string) :
  ∃ d, parse_text_file lines = Some d
    ∧ hd_error (List.map fst d) = Some "Introduction"
    ∧ NoDup (List.map fst d)
    ∧ Forall (λ item, (item.1 = "Introduction" ∨ item.1 ∈ headers lines)
                      ∧ Forall (λ line, line ∈ contents lines) item.2) d.
Proof.
  destruct (parse_text_file_inv lines) as ([d cur] & Heq & _ & Hnd & Hhd & Hall).
  exists d. unfold parse_text_file. rewrite Heq. by cbn.
Qed.

Lemma text_lines_distinct (lines : list string) :
  ∀ (d0 : OrderedDict) (cur : string) (v : list string),
    NoDup (List.map fst d0 ++ cur :: headers lines) →
    ∃ d, for_each text_line_step lines (d0 ++ [(cur, v)], cur) = Some d
      ∧ List.map fst d.1 = List.map fst d0 ++ cur :: headers lines
      ∧ concat (List.map snd d.1)
        = concat (List.map snd d0) ++ v ++ contents lines.
Proof.
  induction lines as [|line lines IH]; intros d0 cur v Hnd.
  - eexists. split; [done|]. cbn [fst]. rewrite !List.map_app, concat_app.
    cbn. by rewrite !app_nil_r.
  - cbn [for_each]. rewrite text_line_step_eq.
    rewrite headers_cons in *. rewrite contents_cons.
    destruct (truthy (strip line)) eqn:Ht; cbn [negb andb] in *;
      [|cbn [mbind option_bind]; by apply IH].
    destruct (is_chapter_header (strip line)) eqn:Hh; cbn [negb] in *.
    + cbn [mbind option_bind]. rewrite od_set_fresh.
      2:{ rewrite List.map_app. cbn [List.map fst].
          apply NoDup_app in Hnd as (_ & Hsep & Hrest).
          apply NoDup_cons in Hrest as [Hcur _].
          intros [Hin|Heq%list_elem_of_singleton]%elem_of_app.
          - apply (Hsep _ Hin). apply list_elem_of_further, list_elem_of_here.
          - apply Hcur. rewrite Heq. apply list_elem_of_here. }
      destruct (IH (d0 ++ [(cur, v)]) (strip line) []) as (d & Heq & Hk & Hc).
      { rewrite List.map_app. cbn [List.map fst]. by rewrite <- app_assoc. }
      exists d. split; [exact Heq|]. rewrite Hk, Hc, !List.map_app, concat_app.
      cbn [List.map fst snd concat app]. rewrite app_nil_r.
      by rewrite <- !app_assoc.
    + rewrite od_append_last.
      2:{ apply NoDup_app in Hnd as (_ & Hsep & _). intros Hin.
          apply (Hsep _ Hin), list_elem_of_here. }
      cbn [mbind option_bind].
      destruct (IH d0 cur (v ++ [strip line]) Hnd) as (d & Heq & Hk & Hc).
      exists d. split; [exact Heq|]. rewrite Hk, Hc. by rewrite <- !app_assoc.
Qed.

(** X17: when the header lines of the file are pairwise distinct, and
    distinct from ["Introduction"], [parse_text_file] loses nothing: the
    keys are ["Introduction"] and the headers in their order, and the stored
    lines, chapter after chapter, are the other non-empty lines in their
    order. *)
Theorem parse_text_file_keeps_lines (lines : list string) :
  NoDup ("Introduction" :: headers lines) →
  ∃ d, parse_text_file lines = Some d
    ∧ List.map fst d = "Introduction" :: headers lines
    ∧ concat (List.map snd d) = contents lines.
Proof.
  intros Hnd.
  destruct (text_lines_distinct lines [] "Introduction" [] Hnd)
    as (st & Heq & Hk & Hc).
  exists st.1. split; [|done].
  unfold parse_text_file.
  by assert (for_each text_line_step lines initial = Some st) as -> by exact Heq.
Qed.

Lemma parse_text_file_keeps_lines_witness :
  ∃ d, parse_text_file
         ["A preface."; "Chapter 1"; " Call me Ishmael. "; ""; "LOOMINGS";
          "Some years ago."]
       = Some d
    ∧ List.map fst d
      = "Introduction"
        :: headers ["A preface."; "Chapter 1"; " Call me Ishmael. "; "";
                    "LOOMINGS"; "Some years ago."]
    ∧ concat (List.map snd d)
      = contents ["A preface."; "Chapter 1"; " Call me Ishmael. "; "";
                  "LOOMINGS"; "Some years ago."].
Proof.
  apply (parse_text_file_keeps_lines
           ["A preface."; "Chapter 1"; " Call me Ishmael. "; ""; "LOOMINGS";
            "Some years ago."]).
  apply (bool_decide_unpack _). by vm_compute.
Defined.

Lemma text_lines_after_header (lines : list string) :
  ∀ (d : OrderedDict) (key : string) (v : list string),
    headers lines = [] → od_get key d = Some v →
    ∃ d', for_each text_line_step lines (d, key) = Some (d', key)
      ∧ od_get key d' = Some (v ++ contents lines).
Proof.
  induction lines as [|line lines IH]; intros d key v Hh Hget.
  - exists d. split; [done|]. by rewrite app_nil_r.
  - cbn [for_each]. rewrite text_line_step_eq.
    rewrite headers_cons in Hh. rewrite contents_cons.
    destruct (truthy (strip line)) eqn:Ht; cbn [negb andb] in *;
      [|cbn [mbind option_bind]; by apply IH].
    destruct (is_chapter_header (strip line)) eqn:Hl; [done|]. cbn [negb].
    destruct (od_get_append key (strip line) d v Hget) as (d1 & -> & Hget1).
    cbn [mbind option_bind].
    destruct (IH d1 key _ Hh Hget1) as (d' & -> & Hget').
    exists d'. split; [done|]. by rewrite Hget', <- app_assoc.
Qed.

(** X18: a header line starts its chapter afresh, whatever the dictionary
    held under that title: when no header follows it, the chapter holds
    exactly the non-empty lines after it. Lines stored earlier under a
    repeated title are discarded. *)
Theorem last_header_restarts_chapter (before : list string) (header : string)
    (after : list string) :
  is_chapter_header header = true → headers after = [] →
  ∃ d, parse_text_file (before ++ header :: after) = Some d
    ∧ od_get (strip header) d = Some (contents after).
Proof.
  intros Hh Hafter. unfold parse_text_file. rewrite for_each_app.
  destruct (parse_text_file_inv before) as ([d1 cur] & -> & _).
  cbn [mbind option_bind for_each]. rewrite text_line_step_eq.
  rewrite (header_not_empty _ Hh), header_strip, Hh.
  cbn [negb mbind option_bind].
  destruct (text_lines_after_header after (od_set (strip header) [] d1)
              (strip header) [] Hafter (od_get_set _ _ _)) as (d & -> & Hget).
  by exists d.
Qed.

Lemma last_header_restarts_chapter_witness :
  ∃ d, parse_text_file
         (["PART ONE"; "first words"] ++ "PART ONE" :: ["last words"])
       = Some d
    ∧ od_get (strip "PART ONE") d = Some (contents ["last words"]).
Proof.
  apply (last_header_restarts_chapter ["PART ONE"; "first words"] "PART ONE"
           ["last words"]); reflexivity.
Defined.

(** X19: the chapters that [parse_text_file] hands to [main.py] are
    never blank: one that has lines has text left after joining and
    stripping, so the chapter loop of [create_audiobook_from_pickle] skips
    exactly those without lines. *)
Theorem parsed_chapters_not_blank (lines : list string) :
  ∃ d, parse_text_file lines = Some d
    ∧ Forall (λ chapter,
                Pipeline.chapter_content chapter = []
                ∨ truthy (Pipeline.chapter_text chapter) = true)
             (structured_array d).
Proof.
  destruct (parse_text_file_inv lines) as ([d cur] & Heq & _ & _ & _ & Hall).
  exists d. unfold parse_text_file. rewrite Heq. split; [done|].
  unfold structured_array. apply Forall_fmap.
  eapply Forall_impl; [exact Hall|]. intros [key v] [_ Hv].
  cbn [fst snd compose Pipeline.chapter_content] in *.
  destruct v as [|line v]; [by left|right].
  unfold Pipeline.chapter_text. cbn [Pipeline.chapter_content].
  assert (all_space (join " " (line :: v)) = false) as Hink.
  { apply Forall_cons_1 in Hv as [Hline _]. apply contents_inked in Hline.
    cbn [join]. destruct v; [done|].
    by rewrite SegmenterMore.all_space_app, Hline. }
  apply SegmenterMore.strip_inked in Hink.
  by destruct (strip (join " " (line :: v))).
Qed.

(** *** [parse_pdf] *)

Lemma pdf_line_step_inv st line :
  parse_inv pdf_title pdf_line st →
  ∃ st', pdf_line_step st line = Some st' ∧ parse_inv pdf_title pdf_line st'.
Proof.
  destruct st as [d cur]. intros Hinv. unfold pdf_line_step.
  destruct (is_page_number line) eqn:Hp; [by eauto|].
  destruct (is_chapter_header line) eqn:Hh.
  - eexists. split; [done|]. apply (open_chapter_inv _ _ d cur); [done|].
    right. by rewrite header_strip, strip_idem.
  - destruct (append_line_inv _ _ d cur line Hinv) as (d' & -> & Hinv'); [done|].
    cbn [mbind option_bind]. by eauto.
Qed.

Lemma pdf_page_step_inv st text :
  parse_inv pdf_title pdf_line st →
  ∃ st', pdf_page_step st text = Some st' ∧ parse_inv pdf_title pdf_line st'.
Proof.
  intros Hinv. unfold pdf_page_step. destruct text as [text|]; [|by eauto].
  destruct (truthy text); cbn [negb]; [|by eauto].
  apply (for_each_inv pdf_line_step _ (λ _, True)); [|by apply Forall_true|done].
  intros st' line Hst' _. by apply pdf_line_step_inv.
Qed.

(** X20: [parse_pdf] never raises [KeyError]. The first key of its
    dictionary is ["Introduction"], the keys are distinct, every other key
    is a stripped header, and no stored line is a page number or a
    header. *)
Theorem parse_pdf_shape (pages : list (option string)) :
  ∃ d, parse_pdf pages = Some d
    ∧ hd_error (List.map fst d) = Some "Introduction"
    ∧ NoDup (List.map fst d)
    ∧ Forall (λ item,
                (item.1 = "Introduction"
                 ∨ (is_chapter_header item.1 = true ∧ strip item.1 = item.1))
                ∧ Forall (λ line, is_page_number line = false
                                  ∧ is_chapter_header line = false) item.2) d.
Proof.
  destruct (for_each_inv pdf_page_step (parse_inv pdf_title pdf_line)
              (λ _, True) pages initial)
    as ([d cur] & Heq & _ & Hnd & Hhd & Hall).
  - intros st text Hst _. by apply pdf_page_step_inv.
  - by apply Forall_true.
  - apply initial_inv. by left.
  - exists d. unfold parse_pdf. rewrite Heq. by cbn.
Qed.

End ReadPDFSpec.

(** ** [main.py]: the batch driver *)
Module BatchSpec.
Import PyStr PyStrMore Pipeline PipelineFiles Batch.

Section Spec.
Context {Audio : Type}.
Context (silent : Audio) (audio_add : Audio → Audio → Audio)
        (audio_len : Audio → Z).
Context (tts_to_file : nat → string → @Outcome Audio)
        (transcribe : nat → @File Audio → option string)
        (export : Audio → @Outcome Audio)
        (ffmpeg : gmap string (@File Audio) → string → @Outcome Audio)
        (load : string → option (list Chapter)).

Local Abbreviation document_step :=
  (Batch.document_step silent audio_add audio_len tts_to_file transcribe
     export ffmpeg load).
Local Abbreviation main :=
  (Batch.main silent audio_add audio_len tts_to_file transcribe export ffmpeg
     load).






End Spec.
End BatchSpec.

(** ** [readPDF.py]: the script *)
Module ReadPDFScriptSpec.
Import PyStr PyStrMore ReadPDF ReadPDFScript SegmenterSpec.

Lemma substring_all (x : string) : substring 0 (String.length x) x = x.
Proof. induction x as [|c x IH]; cbn; [done|]. by rewrite IH. Qed.

Lemma substring_append_r (x y : string) (n : nat) :
  substring (String.length x) n (x +:+ y) = substring 0 n y.
Proof.
  induction x as [|c x IH]; rewrite ?append_nil_l, ?append_cons; [done|].
  cbn [String.length substring]. apply IH.
Qed.

Lemma substring_split (x : string) (k : nat) :
  (k ≤ String.length x)%nat →
  x = substring 0 k x +:+ substring k (String.length x - k) x.
Proof.
  revert k. induction x as [|c x IH]; intros k Hk; cbn [String.length] in *.
  - by destruct k.
  - destruct k as [|k].
    + cbn [substring]. rewrite append_nil_l. cbn [Nat.sub].
      by rewrite substring_all.
    + cbn [substring Nat.sub]. rewrite append_cons. f_equal. apply IH. lia.
Qed.

Lemma string_length_append (x y : string) :
  String.length (x +:+ y) = (String.length x + String.length y)%nat.
Proof.
  induction x as [|c x IH]; rewrite ?append_nil_l, ?append_cons; [done|].
  cbn [String.length]. by rewrite IH.
Qed.

Lemma endswith_append (x suffix : string) : endswith (x +:+ suffix) suffix = true.
Proof.
  unfold endswith. rewrite string_length_append.
  apply andb_true_intro. split; [apply Nat.leb_le; lia|].
  replace (String.length x + String.length suffix - String.length suffix)%nat
    with (String.length x) by lia.
  rewrite substring_append_r, substring_all. apply String.eqb_refl.
Qed.

Lemma endswith_inv (x suffix : string) :
  endswith x suffix = true → ∃ y, x = y +:+ suffix.
Proof.
  unfold endswith. intros [Hlen Heq]%andb_prop.
  apply Nat.leb_le in Hlen. apply String.eqb_eq in Heq.
  remember (String.length suffix) as m eqn:Hm. clear Hm.
  exists (substring 0 (String.length x - m) x). rewrite <- Heq.
  pose proof (substring_split x (String.length x - m)) as Hsplit.
  replace (String.length x - (String.length x - m))%nat with m in Hsplit by lia.
  apply Hsplit. lia.
Qed.

(** An occurrence of [".json"] that starts before another one ends before
    it: the dot is its only dot. *)
Lemma json_prefix_fits (c : ascii) (x : string) :
  String.prefix ".json" (String c (x +:+ ".json")) = true →
  (4 ≤ String.length x)%nat.
Proof.
  destruct x as [|c1 [|c2 [|c3 [|c4 x]]]];
    rewrite ?append_cons, ?append_nil_l; cbn [String.length]; [..|lia];
    intros H; exfalso; revert H; cbn [String.prefix];
    repeat (destruct (ascii_dec _ _) as [<-|]; try done).
Qed.

Lemma replace_json_tail (x : string) :
  ∀ skip, (skip ≤ String.length x)%nat →
    ∃ y, replace_from ".json" ".pkl" skip (x +:+ ".json") = y +:+ ".pkl".
Proof.
  induction x as [|c x IH]; intros skip Hskip; cbn [String.length] in *.
  - assert (skip = 0%nat) as -> by lia. by exists EmptyString.
  - rewrite append_cons. cbn [replace_from]. destruct skip as [|skip].
    + destruct (String.prefix ".json" (String c (x +:+ ".json"))) eqn:E.
      * apply json_prefix_fits in E.
        destruct (IH (String.length ".json" - 1)%nat) as (y & ->); [cbn; lia|].
        exists (".pkl" +:+ y). by rewrite append_assoc.
      * destruct (IH 0%nat) as (y & ->); [lia|].
        exists (String c y). by rewrite append_cons.
    + destruct (IH skip) as (y & ->); [lia|]. by exists y.
Qed.

Section Spec.
Context (pdf_pages : string → option (list (option string)))
        (parse_epub : string → option OrderedDict)
        (text_lines : string → option (list string)).

Local Abbreviation main := (ReadPDFScript.main pdf_pages parse_epub text_lines).

Lemma structured_text_raises (file_path : string) (e : Exit) :
  structured_text pdf_pages parse_epub text_lines file_path = inl e →
  e = ReadError ∨ e = KeyError.
Proof.
  unfold structured_text.
  repeat match goal with
         | |- context [match ?x with _ => _ end] => destruct x
         end; intros [= <-]; by eauto.
Qed.

(** X23: called with the path of the input file only, as the usage
    message asks, [main] raises [IndexError]: it reads the output path from
    [sys.argv[2]] before it opens any file. *)
Theorem one_argument_raises_index_error (argv : list string) :
  length argv = 2%nat → main argv = IndexError.
Proof.
  destruct argv as [|script [|file_path [|output_path argv]]]; by intros [=].
Qed.

(** X24: when the output argument ends with [".json"], what [main] dumps
    goes to a path that ends with [".pkl"]. *)
Theorem json_output_dumped_to_pkl (argv : list string)
    (output_path path : string) (data : list Pipeline.Chapter) :
  argv !! 2%nat = Some output_path → endswith output_path ".json" = true →
  main argv = Dumped path data → endswith path ".pkl" = true.
Proof.
  intros Hout [x ->]%endswith_inv. unfold ReadPDFScript.main. rewrite Hout.
  destruct (length argv <? 2)%nat; [done|].
  destruct (argv !! 1%nat) as [file_path|]; [|done].
  destruct (structured_text _ _ _ file_path) as [e|d] eqn:E.
  { by destruct (structured_text_raises _ _ E) as [-> | ->]. }
  intros [= <- _]. unfold replace.
  destruct (replace_json_tail x 0%nat) as (y & ->); [lia|].
  apply endswith_append.
Qed.

End Spec.

Lemma one_argument_raises_index_error_witness :
  ReadPDFScript.main (λ _, None) (λ _, None) (λ _, None)
    ["readPDF.py"; "book.txt"] = IndexError.
Proof.
  by apply (one_argument_raises_index_error (λ _, None) (λ _, None) (λ _, None)
              ["readPDF.py"; "book.txt"]).
Defined.

Lemma json_output_dumped_to_pkl_witness :
  endswith "out/book.pkl" ".pkl" = true.
Proof.
  apply (json_output_dumped_to_pkl (λ _, None) (λ _, None)
           (λ _, Some ["Call me Ishmael."])
           ["readPDF.py"; "book.txt"; "out/book.json"]
           "out/book.json" "out/book.pkl"
           (structured_array [("Introduction", ["Call me Ishmael."])]));
    reflexivity.
Defined.

End ReadPDFScriptSpec.
